(** * nanit: stream liveness, watchdog and silence-detect log classification

    A shallow embedding of the Go sources
      - pkg/player/silencedetect.go  (parseSilenceDetectLog)
      - pkg/app/player.go            (dummyPlayer)
      - pkg/app/app.go               (handleBaby, runStreamProcess,
                                      runWebsocket, runWatchDog)
    and the properties of these functions. *)

From Stdlib Require Import ZArith Lia Ascii String List Bool.
From stdpp Require Import base option list strings gmap.
Import ListNotations.

Set Default Proof Using "Type".
Local Open Scope nat_scope.

(** Go strings are immutable byte sequences. *)
Definition bytes (s : string) : list ascii := list_ascii_of_string s.

(* ===================================================================== *)
(** ** A backtracking matcher for the fragment of Go's [regexp] syntax
       used by silencedetect.go *)
(* ===================================================================== *)

Module Regexp.

(** Abstract syntax of the patterns. Capture groups do not influence
    [FindString] and [MatchString], hence they are not represented. *)
Inductive Regexp : Type :=
| Bol                          (* ^  : beginning of text *)
| Eol                          (* $  : end of text (no [m] flag) *)
| Lit (l : list ascii)         (* literal run of bytes *)
| Class (p : ascii -> bool)    (* character class *)
| Cat (r1 r2 : Regexp)         (* concatenation *)
| Plus (r : Regexp)            (* r+ , greedy *)
| Quest (r : Regexp).          (* r? , greedy *)

Infix "<.>" := Cat (at level 61, left associativity).

(** [strip l s] removes the literal [l] from the front of [s]. *)
Fixpoint strip (l s : list ascii) : option (list ascii) :=
  match l, s with
  | [], _ => Some s
  | a :: l', b :: s' => if Ascii.eqb a b then strip l' s' else None
  | _ :: _, [] => None
  end.

(** The loop of a greedy [r+]: after one match of the body (given as
    [step]) another iteration is preferred to stopping. An iteration that
    consumed nothing is not repeated. At most [fuel] iterations are tried;
    [run] supplies more fuel than there are bytes left. *)
Fixpoint plus_loop (step : nat -> list ascii -> list (nat * list ascii))
    (fuel : nat) (pos : nat) (s : list ascii) : list (nat * list ascii) :=
  match fuel with
  | 0 => []
  | S fuel' =>
      flat_map (fun '(pos', s') =>
                  (if pos <? pos' then plus_loop step fuel' pos' s' else [])
                    ++ [(pos', s')])
               (step pos s)
  end.

(** [run r pos s] lists, in order of preference (leftmost-first, greedy
    operators try the longer alternative first), the ways in which [r]
    matches a prefix of [s], the text remaining at offset [pos]. Each
    result is the offset after the match and the text left over. *)
Fixpoint run (r : Regexp) (pos : nat) (s : list ascii) : list (nat * list ascii) :=
  match r with
  | Bol => if pos =? 0 then [(pos, s)] else []
  | Eol => match s with [] => [(pos, s)] | _ :: _ => [] end
  | Lit l => match strip l s with
             | Some s' => [(pos + length l, s')]
             | None => []
             end
  | Class p => match s with
               | c :: s' => if p c then [(S pos, s')] else []
               | [] => []
               end
  | Cat r1 r2 => flat_map (fun '(pos', s') => run r2 pos' s') (run r1 pos s)
  | Quest r1 => run r1 pos s ++ [(pos, s)]
  | Plus r1 => plus_loop (run r1) (S (length s)) pos s
  end.

(** Leftmost match: the first offset at which the pattern matches, with
    the preferred match there; [(b, e)] are the bounds of the match. *)
Fixpoint search (r : Regexp) (pos : nat) (s : list ascii) : option (nat * nat) :=
  match run r pos s with
  | (e, _) :: _ => Some (pos, e)
  | [] => match s with
          | [] => None
          | _ :: s' => search r (S pos) s'
          end
  end.

(** regexp.Regexp.FindString: the text of the leftmost match, or the
    empty string when there is none. *)
Definition FindString (r : Regexp) (s : list ascii) : list ascii :=
  match search r 0 s with
  | Some (b, e) => firstn (e - b) (skipn b s)
  | None => []
  end.

(** regexp.Regexp.MatchString: whether the text contains a match. *)
Definition MatchString (r : Regexp) (s : list ascii) : bool :=
  match search r 0 s with
  | Some _ => true
  | None => false
  end.

(** Perl character classes of RE2 restricted to the ones in use. *)
Definition in_range (lo hi c : ascii) : bool :=
  (nat_of_ascii lo <=? nat_of_ascii c) && (nat_of_ascii c <=? nat_of_ascii hi).

(** \s = [\t\n\f\r ] *)
Definition cls_space (c : ascii) : bool :=
  match nat_of_ascii c with
  | 9 | 10 | 12 | 13 | 32 => true
  | _ => false
  end.

(** [0-9] *)
Definition cls_digit (c : ascii) : bool := in_range "0" "9" c.

(** [0-9a-f] *)
Definition cls_hex (c : ascii) : bool := in_range "0" "9" c || in_range "a" "f" c.

(** Whether the first byte of [s] exists and belongs to the class [p]. *)
Definition starts_with (p : ascii -> bool) (s : list ascii) : bool :=
  match s with
  | c :: _ => p c
  | [] => false
  end.

(** Patterns that start with [^] can match at offset 0 only. *)
Fixpoint anchored (r : Regexp) : bool :=
  match r with
  | Bol => true
  | Cat r1 _ => anchored r1
  | _ => false
  end.

End Regexp.

(* ===================================================================== *)
(** ** pkg/player/silencedetect.go *)
(* ===================================================================== *)

Module Player.
Import Regexp.

(** ^\[silencedetect\s@\s0x[0-9a-f]+\]\s+ *)
Definition ffmpegSilenceDetectPrefixRX : Regexp :=
  Bol <.> Lit (bytes "[silencedetect") <.> Class cls_space <.> Lit (bytes "@")
      <.> Class cls_space <.> Lit (bytes "0x") <.> Plus (Class cls_hex)
      <.> Lit (bytes "]") <.> Plus (Class cls_space).

(** The part of the prefix pattern before the trailing [\s+]. *)
Definition tagRX : Regexp :=
  Bol <.> Lit (bytes "[silencedetect") <.> Class cls_space <.> Lit (bytes "@")
      <.> Class cls_space <.> Lit (bytes "0x") <.> Plus (Class cls_hex)
      <.> Lit (bytes "]").

(** ^silence_start:\s(-?[0-9]+(\.[0-9]+)?)$ *)
Definition ffmpegSilenceDetectStartRX : Regexp :=
  Bol <.> Lit (bytes "silence_start:") <.> Class cls_space
      <.> Quest (Lit (bytes "-")) <.> Plus (Class cls_digit)
      <.> Quest (Lit (bytes ".") <.> Plus (Class cls_digit))
      <.> Eol.

(** ^silence_end:\s(-?[0-9]+(\.[0-9]+)?) *)
Definition ffmpegSilenceDetectEndRX : Regexp :=
  Bol <.> Lit (bytes "silence_end:") <.> Class cls_space
      <.> Quest (Lit (bytes "-")) <.> Plus (Class cls_digit)
      <.> Quest (Lit (bytes ".") <.> Plus (Class cls_digit)).

Inductive ffmpegSilenceDetect : Type :=
| ffmpegSilenceDetectEvent_unknown
| ffmpegSilenceDetectEvent_start
| ffmpegSilenceDetectEvent_end.

Definition parseSilenceDetectLog (line : list ascii) : ffmpegSilenceDetect :=
  let prefix := FindString ffmpegSilenceDetectPrefixRX line in
  match prefix with
  | _ :: _ =>
      let withoutPrefix := skipn (length prefix) line in
      if MatchString ffmpegSilenceDetectStartRX withoutPrefix then
        ffmpegSilenceDetectEvent_start
      else if MatchString ffmpegSilenceDetectEndRX withoutPrefix then
        ffmpegSilenceDetectEvent_end
      else ffmpegSilenceDetectEvent_unknown
  | [] => ffmpegSilenceDetectEvent_unknown
  end.

(** The shapes of text the three patterns describe. *)

(** [0-9]+ *)
Definition digits (ds : list ascii) : Prop :=
  ds <> [] /\ forallb cls_digit ds = true.

(** -?[0-9]+(\.[0-9]+)? : an optionally negative, optionally fractional
    decimal. *)
Definition decimal (n : list ascii) : Prop :=
  exists sg ip fr,
    n = sg ++ ip ++ fr /\
    (sg = [] \/ sg = bytes "-") /\
    digits ip /\
    (fr = [] \/ exists fp, fr = bytes "." ++ fp /\ digits fp).

(** The tool tag: [silencedetect @ 0x<hex>] and the blanks after it. *)
Definition tool_tag (p : list ascii) : Prop :=
  exists w1 w2 hx ws,
    p = bytes "[silencedetect" ++ w1 :: bytes "@" ++ w2 :: bytes "0x"
          ++ hx ++ bytes "]" ++ ws /\
    cls_space w1 = true /\ cls_space w2 = true /\
    hx <> [] /\ forallb cls_hex hx = true /\
    ws <> [] /\ forallb cls_space ws = true.

(** A line made of the tool tag followed by [silence_start: <n>]. *)
Definition start_line (line : list ascii) : Prop :=
  exists p c n,
    line = p ++ bytes "silence_start:" ++ c :: n /\
    tool_tag p /\ cls_space c = true /\ decimal n.

(** A line made of the tool tag followed by [silence_end: <n>] and then
    any text at all. *)
Definition end_line (line : list ascii) : Prop :=
  exists p c n rest,
    line = p ++ bytes "silence_end:" ++ c :: n ++ rest /\
    tool_tag p /\ cls_space c = true /\ decimal n.

(** The trailing duration clause, as the specification sketches it
    ([, duration: <n>]) or as ffmpeg prints it ([ | silence_duration: <n>]). *)
Definition duration_clause (d : list ascii) : Prop :=
  exists n, decimal n /\
            (d = bytes ", duration: " ++ n \/ d = bytes " | silence_duration: " ++ n).

(** A line made of the tool tag followed by [silence_end: <n>], with or
    without a trailing duration clause and nothing else. *)
Definition end_line_strict (line : list ascii) : Prop :=
  exists p c n d,
    line = p ++ bytes "silence_end:" ++ c :: n ++ d /\
    tool_tag p /\ cls_space c = true /\ decimal n /\
    (d = [] \/ duration_clause d).

End Player.


(* ===================================================================== *)
(** ** Collaborators of package app that are not part of these sources *)
(* ===================================================================== *)

(** time.Duration: a count of nanoseconds. *)
Module Time.
Local Open Scope Z_scope.

Definition Duration : Type := Z.
Definition Second : Duration := 1000000000.
Definition Minute : Duration := 60 * Second.
Definition Hour : Duration := 60 * Minute.

End Time.

Module Baby.

Inductive StreamState : Type :=
| StreamState_Unknown
| StreamState_Unhealthy
| StreamState_Alive.

Inductive StreamRequestState : Type :=
| StreamRequestState_NotRequested
| StreamRequestState_Requested
| StreamRequestState_RequestFailed.

(** Modelled from the spec: baby.State, the device state record. Every
    field is optional (a nil pointer in an update leaves the stored field
    as it is); only the two fields read by package app are kept. *)
Record State : Type := {
  State_StreamState : option StreamState;
  State_StreamRequestState : option StreamRequestState
}.

Definition NewState : State :=
  {| State_StreamState := None; State_StreamRequestState := None |}.

Definition SetStreamState (v : StreamState) (st : State) : State :=
  {| State_StreamState := Some v;
     State_StreamRequestState := State_StreamRequestState st |}.

Definition SetStreamRequestState (v : StreamRequestState) (st : State) : State :=
  {| State_StreamState := State_StreamState st;
     State_StreamRequestState := Some v |}.

(** Getters answer the default of the enumeration for an unset field. *)
Definition GetStreamState (st : State) : StreamState :=
  default StreamState_Unknown (State_StreamState st).

Definition GetStreamRequestState (st : State) : StreamRequestState :=
  default StreamRequestState_NotRequested (State_StreamRequestState st).

(** Modelled from the spec: the partial merge of an update into the
    stored record; fields the update does not carry keep their value. *)
Definition Merge (old delta : State) : State :=
  {| State_StreamState :=
       match State_StreamState delta with
       | Some v => Some v
       | None => State_StreamState old
       end;
     State_StreamRequestState :=
       match State_StreamRequestState delta with
       | Some v => Some v
       | None => State_StreamRequestState old
       end |}.

(** Modelled from the spec: baby.StateManager, the state store keyed by
    device identifier. [GetBabyState] answers the stored record or the
    defaults; [Update] merges the delta into it. Subscribers are called
    with the device identifier and the delta after the merge; the callback
    of package app is [App.onStateUpdate] below. *)
Abbreviation StateManager := (gmap string State).

Definition GetBabyState (m : StateManager) (babyUID : string) : State :=
  default NewState (m !! babyUID).

Definition Update (m : StateManager) (babyUID : string) (delta : State) : StateManager :=
  <[babyUID := Merge (GetBabyState m babyUID) delta]> m.

End Baby.

(** Modelled from the spec: utils.LogTailer, the bounded buffer holding the
    last lines of the tool's diagnostic output (package utils is not among
    the sources). *)
Module LogTailer.

Record LogTailer : Type := {
  capacity : nat;
  lines : list string
}.

Definition NewLogTailer (n : nat) : LogTailer := {| capacity := n; lines := [] |}.

(** Reading the whole stream keeps its last [capacity] lines. *)
Definition Tail (t : LogTailer) (input : list string) : LogTailer :=
  let all := lines t ++ input in
  {| capacity := capacity t;
     lines := skipn (length all - capacity t) all |}.

End LogTailer.

(* ===================================================================== *)
(** ** pkg/app/player.go: dummyPlayer *)
(* ===================================================================== *)

Module Probe.
Local Open Scope Z_scope.

(** What a read of the FLV decoder returns: a value, io.EOF, or another
    error (with its text). *)
Inductive decode_result : Type :=
| DecodeOk
| DecodeEOF
| DecodeErr (e : string).

Inductive level : Type := Debug | Info | Warn | Error.

(** The effects of the probe one can observe from outside. *)
Inductive event : Type :=
| Log (l : level) (msg : string)
    (* sublog.<l>().Msg(msg) *)
| LogErr (l : level) (err : decode_result) (msg : string)
    (* sublog.<l>().Err(err).Msg(msg) *)
| LogExit (code : Z) (logtail : list string)
    (* sublog.Error().Int("code", code).Str("logtail", ..).Msg("Player exited") *)
| UpdateStreamAlive (babyUID : string)
    (* app.BabyStateManager.Update(babyUID, State{}.SetIsStreamAlive(true)) *)
| Kill.
    (* cmd.Process.Kill() *)

(** An error of the decoder: io.EOF, or another error (with its text). *)
Inductive decode_error : Type :=
| ErrEOF
| ErrOther (e : string).

Definition result_of_error (err : decode_error) : decode_result :=
  match err with
  | ErrEOF => DecodeEOF
  | ErrOther e => DecodeErr e
  end.

(** Where the decoder goroutine stands.  Between its read of the latch
    ([!exitingFlag.IsSet()], lines 61 and 85) and the log and send that
    depend on it the other goroutines may run, so the places in between
    are places of their own. *)
Inductive decoder_pc : Type :=
| DecNew
    (* before flv.NewDecoder returns *)
| DecHeaderFailed (err : decode_error)
    (* inside the if of line 61: the latch was read unset, lines 62-68
       are still to run *)
| DecLoop
    (* in the for loop, before dec.Decode returns *)
| DecTagFailed (err : decode_error)
    (* inside the if of line 85: the latch was read unset, lines 86-92
       are still to run *)
| DecReturned.

(** Where the function itself (the select loop) stands. *)
Inductive main_pc : Type :=
| MainSelect                 (* blocked in select *)
| MainRecvTail (code : Z)    (* blocked in tailer := <-stderrC *)
| MainReturned.

Record state : Type := {
  babyUID : string;
  exitingFlag : bool;                       (* abool *)
  exitCode : option Z;                      (* cmd.ProcessState.ExitCode(), once Wait returned *)
  exitedC : bool;                           (* chan struct{}, capacity 1: holds a value *)
  tailed : bool;                            (* the tail goroutine has finished *)
  stderrC : option LogTailer.LogTailer;     (* chan utils.LogTailer, capacity 1 *)
  decoderC : option decode_result;          (* chan error, capacity 1 *)
  ctxDone : bool;                           (* ctx.Done() is closed *)
  decoder : decoder_pc;
  main : main_pc;
  trace : list event                        (* oldest first *)
}.

(** The state right after cmd.Start() succeeded and the three goroutines
    were launched. *)
Definition init (uid : string) : state :=
  {| babyUID := uid; exitingFlag := false; exitCode := None; exitedC := false;
     tailed := false; stderrC := None; decoderC := None; ctxDone := false;
     decoder := DecNew; main := MainSelect;
     trace := [Log Info "Player started"] |}.

(** One atomic step of one of the goroutines, or of the surroundings. *)
Inductive action : Type :=
| ProcExit (code : Z)            (* cmd.Wait() returns; exitedC <- struct{}{} *)
| TailDone (input : list string) (* tailer.Tail(stderrPipe) returns; stderrC <- *tailer *)
| Cancel                         (* the caller cancels ctx *)
| DecHeader (r : decode_result)  (* flv.NewDecoder(stdoutPipe) returns; on an
                                    error the latch is read *)
| DecTag (r : decode_result)     (* dec.Decode(&flvTag) returns; on an error
                                    the latch is read *)
| DecReport                      (* the log, and the send on decoderC, of an
                                    error whose latch read found it unset *)
| SelExited                      (* case <-exitedC *)
| SelCtxDone                     (* case <-ctx.Done() *)
| SelDecoder                     (* case <-decoderC *)
| RecvTail.                      (* tailer := <-stderrC *)

Definition emit (s : state) (evs : list event) : state :=
  {| babyUID := babyUID s; exitingFlag := exitingFlag s; exitCode := exitCode s;
     exitedC := exitedC s; tailed := tailed s; stderrC := stderrC s;
     decoderC := decoderC s; ctxDone := ctxDone s; decoder := decoder s;
     main := main s; trace := trace s ++ evs |}.

Definition set_exitingFlag (s : state) : state :=
  {| babyUID := babyUID s; exitingFlag := true; exitCode := exitCode s;
     exitedC := exitedC s; tailed := tailed s; stderrC := stderrC s;
     decoderC := decoderC s; ctxDone := ctxDone s; decoder := decoder s;
     main := main s; trace := trace s |}.

Definition set_decoder (pc : decoder_pc) (s : state) : state :=
  {| babyUID := babyUID s; exitingFlag := exitingFlag s; exitCode := exitCode s;
     exitedC := exitedC s; tailed := tailed s; stderrC := stderrC s;
     decoderC := decoderC s; ctxDone := ctxDone s; decoder := pc;
     main := main s; trace := trace s |}.

Definition set_decoderC (c : option decode_result) (s : state) : state :=
  {| babyUID := babyUID s; exitingFlag := exitingFlag s; exitCode := exitCode s;
     exitedC := exitedC s; tailed := tailed s; stderrC := stderrC s;
     decoderC := c; ctxDone := ctxDone s; decoder := decoder s;
     main := main s; trace := trace s |}.

Definition set_main (pc : main_pc) (s : state) : state :=
  {| babyUID := babyUID s; exitingFlag := exitingFlag s; exitCode := exitCode s;
     exitedC := exitedC s; tailed := tailed s; stderrC := stderrC s;
     decoderC := decoderC s; ctxDone := ctxDone s; decoder := decoder s;
     main := pc; trace := trace s |}.

(** The goroutine around cmd.Wait(). *)
Definition step_ProcExit (code : Z) (s : state) : option state :=
  match exitCode s with
  | Some _ => None
  | None =>
      Some {| babyUID := babyUID s; exitingFlag := exitingFlag s;
              exitCode := Some code; exitedC := true; tailed := tailed s;
              stderrC := stderrC s; decoderC := decoderC s; ctxDone := ctxDone s;
              decoder := decoder s; main := main s; trace := trace s |}
  end.

(** The goroutine that tails standard error. *)
Definition step_TailDone (input : list string) (s : state) : option state :=
  if tailed s then None
  else
    Some {| babyUID := babyUID s; exitingFlag := exitingFlag s;
            exitCode := exitCode s; exitedC := exitedC s; tailed := true;
            stderrC := Some (LogTailer.Tail (LogTailer.NewLogTailer 3) input);
            decoderC := decoderC s; ctxDone := ctxDone s;
            decoder := decoder s; main := main s; trace := trace s |}.

Definition step_Cancel (s : state) : option state :=
  if ctxDone s then None
  else
    Some {| babyUID := babyUID s; exitingFlag := exitingFlag s;
            exitCode := exitCode s; exitedC := exitedC s; tailed := tailed s;
            stderrC := stderrC s; decoderC := decoderC s; ctxDone := true;
            decoder := decoder s; main := main s; trace := trace s |}.

(** The goroutine that decodes standard output: flv.NewDecoder returns.
    With a header the goroutine logs, updates the store and enters the
    loop.  With an error it reads the latch (line 61): set, it returns
    at once; unset, it goes on to lines 62-68, which [step_DecReport]
    runs. *)
Definition step_DecHeader (r : decode_result) (s : state) : option state :=
  match decoder s with
  | DecNew =>
      match r with
      | DecodeOk =>
          Some (set_decoder DecLoop
                  (emit s [Log Debug "Successfully decoded stream header";
                           Log Info "Stream is alive";
                           UpdateStreamAlive (babyUID s)]))
      | DecodeEOF =>
          if exitingFlag s then Some (set_decoder DecReturned s)
          else Some (set_decoder (DecHeaderFailed ErrEOF) s)
      | DecodeErr e =>
          if exitingFlag s then Some (set_decoder DecReturned s)
          else Some (set_decoder (DecHeaderFailed (ErrOther e)) s)
      end
  | _ => None
  end.

(** The goroutine that decodes standard output: dec.Decode returns in one
    turn of the loop.  With a tag the loop goes on.  With an error the
    goroutine reads the latch (line 85): set, the loop goes on; unset, it
    goes on to lines 86-92, which [step_DecReport] runs. *)
Definition step_DecTag (r : decode_result) (s : state) : option state :=
  match decoder s with
  | DecLoop =>
      match r with
      | DecodeOk => Some s
      | DecodeEOF =>
          if exitingFlag s then Some s
          else Some (set_decoder (DecTagFailed ErrEOF) s)
      | DecodeErr e =>
          if exitingFlag s then Some s
          else Some (set_decoder (DecTagFailed (ErrOther e)) s)
      end
  | _ => None
  end.

(** The goroutine that decodes standard output, after a latch read that
    found the latch unset: lines 62-70 (log, decoderC <- err, return) for
    the header, lines 86-92 for a tag (end of stream: log and next turn;
    another error: log, decoderC <- err, return).  The latch is not read
    again.  decoderC has capacity 1 and this is the only send on it. *)
Definition step_DecReport (s : state) : option state :=
  match decoder s with
  | DecHeaderFailed err =>
      let logged :=
        match err with
        | ErrEOF => Log Warn "Closed pipe"
        | ErrOther _ => LogErr Warn (result_of_error err) "Unable to decode"
        end in
      Some (set_decoder DecReturned
              (set_decoderC (Some (result_of_error err)) (emit s [logged])))
  | DecTagFailed ErrEOF =>
      Some (set_decoder DecLoop (emit s [Log Warn "Closed pipe"]))
  | DecTagFailed (ErrOther e) =>
      Some (set_decoder DecReturned
              (set_decoderC (Some (DecodeErr e))
                 (emit s [LogErr Warn (DecodeErr e) "Failed to decode FLV tag"])))
  | _ => None
  end.

(** select: case <-exitedC *)
Definition step_SelExited (s : state) : option state :=
  match main s, exitedC s, exitCode s with
  | MainSelect, true, Some code =>
      let s1 :=
        {| babyUID := babyUID s; exitingFlag := true; exitCode := exitCode s;
           exitedC := false; tailed := tailed s; stderrC := stderrC s;
           decoderC := decoderC s; ctxDone := ctxDone s; decoder := decoder s;
           main := main s; trace := trace s |} in
      if code =? -1 then
        Some (set_main MainReturned (emit s1 [Log Warn "Player terminated"]))
      else
        Some (set_main (MainRecvTail code) s1)
  | _, _, _ => None
  end.

(** tailer := <-stderrC, then the error log and the return *)
Definition step_RecvTail (s : state) : option state :=
  match main s, stderrC s with
  | MainRecvTail code, Some tailer =>
      Some {| babyUID := babyUID s; exitingFlag := exitingFlag s;
              exitCode := exitCode s; exitedC := exitedC s; tailed := tailed s;
              stderrC := None; decoderC := decoderC s; ctxDone := ctxDone s;
              decoder := decoder s; main := MainReturned;
              trace := trace s ++ [LogExit code (LogTailer.lines tailer)] |}
  | _, _ => None
  end.

(** select: case <-ctx.Done() *)
Definition step_SelCtxDone (s : state) : option state :=
  match main s, ctxDone s with
  | MainSelect, true =>
      if exitingFlag s then Some s
      else
        Some (emit (set_exitingFlag s)
                [Log Debug "Cancel request received, killing the process"; Kill])
  | _, _ => None
  end.

(** select: case <-decoderC *)
Definition step_SelDecoder (s : state) : option state :=
  match main s, decoderC s with
  | MainSelect, Some _ =>
      Some (emit (set_decoderC None s)
              [Log Debug "Decoder failure, killing the process"; Kill])
  | _, _ => None
  end.

(** [step s a] is the state after [a], or [None] when [a] cannot happen
    in [s]. *)
Definition step (s : state) (a : action) : option state :=
  match a with
  | ProcExit code => step_ProcExit code s
  | TailDone input => step_TailDone input s
  | Cancel => step_Cancel s
  | DecHeader r => step_DecHeader r s
  | DecTag r => step_DecTag r s
  | DecReport => step_DecReport s
  | SelExited => step_SelExited s
  | SelCtxDone => step_SelCtxDone s
  | SelDecoder => step_SelDecoder s
  | RecvTail => step_RecvTail s
  end.

(** A schedule: the interleaving of the steps of the goroutines. *)
Fixpoint run (s : state) (acts : list action) : option state :=
  match acts with
  | [] => Some s
  | a :: acts' =>
      match step s a with
      | Some s' => run s' acts'
      | None => None
      end
  end.

(** Observations on traces. *)
Definition is_alive_update (ev : event) : bool :=
  match ev with UpdateStreamAlive _ => true | _ => false end.

Definition is_kill (ev : event) : bool :=
  match ev with Kill => true | _ => false end.

(** The failure report of the probe: the error log "Player exited". *)
Definition is_exit_report (ev : event) : bool :=
  match ev with LogExit _ _ => true | _ => false end.

(** What the decoder goroutine logs about a failed read. *)
Definition is_decoder_report (ev : event) : bool :=
  match ev with
  | Log Warn "Closed pipe" => true
  | LogErr _ _ _ => true
  | _ => false
  end.

Definition is_header_ok (a : action) : bool :=
  match a with DecHeader DecodeOk => true | _ => false end.

Definition alive_updates (tr : list event) : list event :=
  List.filter is_alive_update tr.

Definition exit_reports (tr : list event) : list event :=
  List.filter is_exit_report tr.





(** What the trace holds about the exit of the process, by the place the
    select loop has reached; [acts] is the schedule so far. *)
Definition exit_inv (acts : list action) (s : state) : Prop :=
  (forall t, stderrC s = Some t ->
             exists input, In (TailDone input) acts /\
                           t = LogTailer.Tail (LogTailer.NewLogTailer 3) input) /\
  (main s <> MainReturned -> exit_reports (trace s) = []) /\
  (forall c, main s = MainRecvTail c -> exitCode s = Some c /\ c <> -1) /\
  (main s = MainReturned ->
   exists c, exitCode s = Some c /\
     (c = -1 ->
      exit_reports (trace s) = [] /\ In (Log Warn "Player terminated") (trace s)) /\
     (c <> -1 ->
      exists input, In (TailDone input) acts /\
        exit_reports (trace s) =
          [LogExit c (LogTailer.lines
                        (LogTailer.Tail (LogTailer.NewLogTailer 3) input))])).

(** Once the select loop has handled the cancellation, the process has
    been sent the kill. *)
Definition cancel_inv (acts : list action) (s : state) : Prop :=
  (main s = MainSelect -> exitingFlag s = true -> In Kill (trace s)) /\
  (In SelCtxDone acts -> In Kill (trace s) /\ exitingFlag s = true).

End Probe.

(* ===================================================================== *)
(** ** utils.RunWithPerseverance *)
(* ===================================================================== *)

Module Utils.
Local Open Scope Z_scope.

Record PerseverenceOpts : Type := {
  RunnerID : string;
  ResetThreshold : Time.Duration;
  Cooldown : list Time.Duration
}.

(** Modelled from the spec: utils.RunWithPerseverance, the supervisor
    (package utils is not among the sources). A run is described by the
    time it lasted before it reported failure. The attempt ordinal starts
    at 1 and grows by one per run; a run that lasted at least
    [ResetThreshold] makes the next run start at 1 again. After a run that
    failed before the threshold the supervisor waits
    [Cooldown[min(ordinal-1, len-1)]]; the specification does not fix the
    wait that follows a longer run. *)
Definition cooldown_for (opts : PerseverenceOpts) (ordinal : nat) : Time.Duration :=
  nth (Nat.min (ordinal - 1) (length (Cooldown opts) - 1)) (Cooldown opts) 0.

Definition next_ordinal (opts : PerseverenceOpts) (ordinal : nat)
    (lasted : Time.Duration) : nat :=
  if ResetThreshold opts <=? lasted then 1%nat else S ordinal.

Definition wait_after (opts : PerseverenceOpts) (ordinal : nat)
    (lasted : Time.Duration) : option Time.Duration :=
  if lasted <? ResetThreshold opts then Some (cooldown_for opts ordinal) else None.

(** The ordinal handed to each run and the wait that follows it, for a
    sequence of failing runs. *)
Fixpoint RunWithPerseverance (opts : PerseverenceOpts) (ordinal : nat)
    (runs : list Time.Duration) : list (nat * option Time.Duration) :=
  match runs with
  | [] => []
  | lasted :: runs' =>
      (ordinal, wait_after opts ordinal lasted)
        :: RunWithPerseverance opts (next_ordinal opts ordinal lasted) runs'
  end.

End Utils.

(* ===================================================================== *)
(** ** pkg/app/app.go *)
(* ===================================================================== *)

Module App.
Import Baby.
Local Open Scope Z_scope.

Record RTMPOpts : Type := {
  ListenAddr : string;
  PublicAddr : string
}.

Record Opts : Type := {
  RTMP : option RTMPOpts
}.

(** getLocalStreamURL: the template rtmp://{publicAddr}/local/{babyUid}
    with both placeholders replaced. *)
Definition getLocalStreamURL (opts : Opts) (babyUID : string) : string :=
  match RTMP opts with
  | Some rtmp => ("rtmp://" ++ PublicAddr rtmp ++ "/local/" ++ babyUID)%string
  | None => ""%string
  end.

(** *** handleBaby: the policy handed to the supervisor *)

Definition streamProcessorOpts (babyUID : string) : Utils.PerseverenceOpts :=
  {| Utils.RunnerID := ("stream-processor-" ++ babyUID)%string;
     Utils.ResetThreshold := 2 * Time.Second;
     Utils.Cooldown := [2 * Time.Second; 30 * Time.Second; 2 * Time.Minute;
                        15 * Time.Minute; 1 * Time.Hour] |}.

(** *** runStreamProcess *)

(** Go's [error]: [None] is nil. *)
Definition error : Type := option string.

Inductive sp_event : Type :=
| SpMaybeAuthorize (force : bool)   (* app.RestClient.MaybeAuthorize(..) *)
| SpFatal (msg : string)            (* log.Fatal()...Msg(msg): the program ends *)
| SpLog (l : Probe.level) (msg : string)
| SpStart                           (* cmd.Start() *)
| SpFail (err : error)              (* attempt.Fail(err) *)
| SpKill                            (* cmd.Process.Kill() *)
| SpCloseLog.                       (* defer logFile.Close() *)

(** Which case of the select fires first. *)
Inductive sp_select : Type :=
| SpDone (err : error)              (* case err := <-done, the result of cmd.Wait() *)
| SpAttemptDone (killErr : error).  (* case <-attempt.Done(), and what Kill returns *)

(** The select at the end of runStreamProcess; the same text in both
    versions of the function. *)
Definition awaitStreamProcess (sel : sp_select) : list sp_event :=
  match sel with
  | SpDone (Some e) =>
      [SpLog Probe.Error "Stream processor exited"; SpFail (Some e)]
  | SpDone None =>
      [SpLog Probe.Warn "Stream processor exited with status 0";
       SpFail (Some "Stream processor exited with status 0"%string)]
  | SpAttemptDone killErr =>
      [SpLog Probe.Info "Terminating stream processor"; SpKill]
        ++ match killErr with
           | Some _ => [SpLog Probe.Error "Unable to kill process"]
           | None => []
           end
  end.

(** The body from os.Create on, shared by both versions. *)
Definition startStreamProcess (fileErr startErr : error) (sel : sp_select)
    : list sp_event :=
  match fileErr with
  | Some _ => [SpFatal "Unable to create log file"]
  | None =>
      SpLog Probe.Info "Starting stream processor" ::
      match startErr with
      | Some _ => [SpStart; SpFatal "Unable to start stream processor"]
      | None => SpStart :: awaitStreamProcess sel ++ [SpCloseLog]
      end
  end.

(** runStreamProcess(baby, attempt utils.AttemptContext); [try] is
    attempt.GetTry(). *)
Definition runStreamProcess (try : nat) (fileErr startErr : error)
    (sel : sp_select) : list sp_event :=
  SpMaybeAuthorize (1 <? try)%nat :: startStreamProcess fileErr startErr sel.

(** runStreamProcess(babyUID, name, commandTemplate, attempt
    utils.GracefulContext), the later version. *)
Definition runStreamProcess' (fileErr startErr : error) (sel : sp_select)
    : list sp_event :=
  startStreamProcess fileErr startErr sel.

Definition is_fail (ev : sp_event) : bool :=
  match ev with SpFail _ => true | _ => false end.

(** *** runWebsocket: requests for local streaming *)

Inductive Streaming : Type := Streaming_STARTED | Streaming_STOPPED.

(** A call requestLocalStreaming(babyUID, url, status, conn, manager). *)
Record streaming_request : Type := {
  req_babyUID : string;
  req_url : string;
  req_status : Streaming
}.

(** initializeLocalStreaming *)
Definition initializeLocalStreaming (opts : Opts) (babyUID : string) : streaming_request :=
  {| req_babyUID := babyUID;
     req_url := getLocalStreamURL opts babyUID;
     req_status := Streaming_STARTED |}.

Definition StreamState_eqb (a b : StreamState) : bool :=
  match a, b with
  | StreamState_Unknown, StreamState_Unknown
  | StreamState_Unhealthy, StreamState_Unhealthy
  | StreamState_Alive, StreamState_Alive => true
  | _, _ => false
  end.

Definition StreamRequestState_eqb (a b : StreamRequestState) : bool :=
  match a, b with
  | StreamRequestState_NotRequested, StreamRequestState_NotRequested
  | StreamRequestState_Requested, StreamRequestState_Requested
  | StreamRequestState_RequestFailed, StreamRequestState_RequestFailed => true
  | _, _ => false
  end.

(** The callback given to app.BabyStateManager.Subscribe: the requests it
    starts when the store [m] announces the update [stateUpdate] of
    [updatedBabyUID]. *)
Definition onStateUpdate (opts : Opts) (babyUID : string) (m : StateManager)
    (updatedBabyUID : string) (stateUpdate : State) : list streaming_request :=
  if String.eqb updatedBabyUID babyUID
     && match State_StreamState stateUpdate with
        | Some v => StreamState_eqb v StreamState_Unhealthy
        | None => false
        end
  then
    if negb (StreamRequestState_eqb
               (GetStreamRequestState (GetBabyState m babyUID))
               StreamRequestState_RequestFailed)
    then [initializeLocalStreaming opts babyUID]
    else []
  else [].

(** The requests runWebsocket starts once the connection is ready, before
    it blocks on childCtx.Done(). *)
Definition onConnected (opts : Opts) (babyUID : string) (m : StateManager)
    : list streaming_request :=
  match RTMP opts with
  | Some _ =>
      let babyState := GetBabyState m babyUID in
      if negb (StreamState_eqb (GetStreamState babyState) StreamState_Alive) then
        if negb (StreamRequestState_eqb (GetStreamRequestState babyState)
                                        StreamRequestState_Requested)
           || StreamState_eqb (GetStreamState babyState) StreamState_Unhealthy
        then [initializeLocalStreaming opts babyUID]
        else []
      else []
  | None => []
  end.

(** cleanup, run when childCtx is done *)
Definition onDisconnected (opts : Opts) (babyUID : string) : list streaming_request :=
  match RTMP opts with
  | Some _ =>
      [{| req_babyUID := babyUID;
          req_url := getLocalStreamURL opts babyUID;
          req_status := Streaming_STOPPED |}]
  | None => []
  end.

(** *** runWatchDog *)

Inductive wd_event : Type :=
| WdLog (l : Probe.level) (msg : string)
| WdRun (babyUID url : string) (started ended : Z)
    (* player.Run(player.Opts{..}, ctx), with the watchdog's own ctx; the
       call began at [started] and returned at [ended] *)
| WdUpdate (babyUID : string) (delta : State).
    (* app.BabyStateManager.Update(babyUID, delta) *)

(** Where the loop stands. *)
Inductive wd_loc : Type :=
| WdSelect
    (* blocked in select, line 245 *)
| WdProbing (started : Z) (p : Probe.state)
    (* inside player.Run, line 254: the call began at [started], the
       probe stands at [p] *)
| WdChecking
    (* after the update of line 260, before the read of line 261 *)
| WdResetting
    (* before timer.Reset, line 266 *)
| WdReturned.

Record wd_state : Type := {
  wd_now : Z;                  (* the clock, in nanoseconds *)
  wd_timer : option Z;         (* when timer.C delivers, if the timer is armed *)
  wd_ctxDone : bool;           (* ctx.Done() is closed *)
  wd_pc : wd_loc;
  wd_store : StateManager;
  wd_trace : list wd_event     (* oldest first *)
}.

Definition wd_returned (s : wd_state) : bool :=
  match wd_pc s with WdReturned => true | _ => false end.

Definition in_probe (s : wd_state) : bool :=
  match wd_pc s with WdProbing _ _ => true | _ => false end.

(** timer := time.NewTimer(0) *)
Definition wd_init (now : Z) (m : StateManager) : wd_state :=
  {| wd_now := now; wd_timer := Some now; wd_ctxDone := false;
     wd_pc := WdSelect; wd_store := m; wd_trace := [] |}.

Inductive wd_action : Type :=
| WdTick (d : Z)          (* time passes *)
| WdCancel                (* the caller cancels ctx *)
| WdStore (babyUID : string) (delta : State)
                          (* another worker updates the store *)
| WdSelTimer              (* case <-timer.C: the log, and player.Run begins *)
| WdProbe (a : Probe.action)
                          (* a step of the probe, inside player.Run *)
| WdProbeReturned         (* player.Run returns; the update of line 260 *)
| WdCheck                 (* the read of line 261 and the log of line 262 *)
| WdReset                 (* timer.Reset(5 * time.Second), line 266 *)
| WdSelCtxDone.           (* case <-ctx.Done() *)

Definition unhealthy : State := SetStreamState StreamState_Unhealthy NewState.

Definition alive : State := SetStreamState StreamState_Alive NewState.

(** The context of the probe is the context of the watchdog: a
    cancellation is one the probe sees. *)
Definition probe_cancel (p : Probe.state) : Probe.state :=
  match Probe.step p Probe.Cancel with
  | Some p' => p'
  | None => p
  end.

(** Modelled from the spec: player.Run, the stream liveness probe that
    runWatchDog calls (package player's Run is not among the sources).
    The probe of the spec, with its three activities and its termination
    policy, is what dummyPlayer of pkg/app/player.go implements, and
    [Probe] is that function: the probe in progress is a state of
    [Probe], it begins in [Probe.init] with the context it was given,
    moves by [Probe.step], and the call returns when its select loop has
    returned.  Its report of liveness = Alive goes to the state store
    the watchdog uses. *)
Definition probe_begin (babyUID : string) (done : bool) : Probe.state :=
  if done then probe_cancel (Probe.init babyUID) else Probe.init babyUID.

(** What a step of the probe does to the store: decoding the header
    reports liveness = Alive of the device (player.go:78-80), no other
    step touches the store. *)
Definition probe_store (a : Probe.action) (babyUID : string) (m : StateManager)
    : StateManager :=
  if Probe.is_header_ok a then Update m babyUID alive else m.

(** [wd_step opts babyUID s a] is the state after [a], or [None] when [a]
    cannot happen in [s].  The cancellation of the context is [WdCancel]
    also for the probe, which has no cancellation of its own. *)
Definition wd_step (opts : Opts) (babyUID : string) (s : wd_state) (a : wd_action)
    : option wd_state :=
  if wd_returned s then None
  else
    match a with
    | WdTick d =>
        if 0 <=? d then
          Some {| wd_now := wd_now s + d; wd_timer := wd_timer s;
                  wd_ctxDone := wd_ctxDone s; wd_pc := wd_pc s;
                  wd_store := wd_store s; wd_trace := wd_trace s |}
        else None
    | WdCancel =>
        Some {| wd_now := wd_now s; wd_timer := wd_timer s;
                wd_ctxDone := true;
                wd_pc := match wd_pc s with
                         | WdProbing started p => WdProbing started (probe_cancel p)
                         | pc => pc
                         end;
                wd_store := wd_store s; wd_trace := wd_trace s |}
    | WdStore uid delta =>
        Some {| wd_now := wd_now s; wd_timer := wd_timer s;
                wd_ctxDone := wd_ctxDone s; wd_pc := wd_pc s;
                wd_store := Update (wd_store s) uid delta; wd_trace := wd_trace s |}
    | WdSelTimer =>
        match wd_pc s, wd_timer s with
        | WdSelect, Some at_ =>
            if at_ <=? wd_now s then
              Some {| wd_now := wd_now s; wd_timer := None;
                      wd_ctxDone := wd_ctxDone s;
                      wd_pc := WdProbing (wd_now s)
                                 (probe_begin babyUID (wd_ctxDone s));
                      wd_store := wd_store s;
                      wd_trace :=
                        wd_trace s
                          ++ [WdLog Probe.Debug "Starting local stream watch dog"] |}
            else None
        | _, _ => None
        end
    | WdProbe Probe.Cancel => None
    | WdProbe a =>
        match wd_pc s with
        | WdProbing started p =>
            match Probe.step p a with
            | Some p' =>
                Some {| wd_now := wd_now s; wd_timer := wd_timer s;
                        wd_ctxDone := wd_ctxDone s;
                        wd_pc := WdProbing started p';
                        wd_store := probe_store a babyUID (wd_store s);
                        wd_trace := wd_trace s |}
            | None => None
            end
        | _ => None
        end
    | WdProbeReturned =>
        match wd_pc s with
        | WdProbing started p =>
            match Probe.main p with
            | Probe.MainReturned =>
                Some {| wd_now := wd_now s; wd_timer := wd_timer s;
                        wd_ctxDone := wd_ctxDone s;
                        wd_pc := WdChecking;
                        wd_store := Update (wd_store s) babyUID unhealthy;
                        wd_trace :=
                          wd_trace s
                            ++ [WdRun babyUID (getLocalStreamURL opts babyUID)
                                      started (wd_now s);
                                WdUpdate babyUID unhealthy] |}
            | _ => None
            end
        | _ => None
        end
    | WdCheck =>
        match wd_pc s with
        | WdChecking =>
            Some {| wd_now := wd_now s; wd_timer := wd_timer s;
                    wd_ctxDone := wd_ctxDone s;
                    wd_pc := WdResetting;
                    wd_store := wd_store s;
                    wd_trace :=
                      wd_trace s
                        ++ (if StreamRequestState_eqb
                                 (GetStreamRequestState
                                    (GetBabyState (wd_store s) babyUID))
                                 StreamRequestState_RequestFailed
                            then [WdLog Probe.Error
                                    "Stream is dead and we failed to request it"]
                            else []) |}
        | _ => None
        end
    | WdReset =>
        match wd_pc s with
        | WdResetting =>
            Some {| wd_now := wd_now s;
                    wd_timer := Some (wd_now s + 5 * Time.Second);
                    wd_ctxDone := wd_ctxDone s;
                    wd_pc := WdSelect;
                    wd_store := wd_store s; wd_trace := wd_trace s |}
        | _ => None
        end
    | WdSelCtxDone =>
        match wd_pc s with
        | WdSelect =>
            if wd_ctxDone s then
              Some {| wd_now := wd_now s; wd_timer := wd_timer s;
                      wd_ctxDone := true; wd_pc := WdReturned;
                      wd_store := wd_store s;
                      wd_trace :=
                        wd_trace s ++ [WdLog Probe.Debug "Terminating watchdog"] |}
            else None
        | _ => None
        end
    end.

Fixpoint runWatchDog (opts : Opts) (babyUID : string) (s : wd_state)
    (acts : list wd_action) : option wd_state :=
  match acts with
  | [] => Some s
  | a :: acts' =>
      match wd_step opts babyUID s a with
      | Some s' => runWatchDog opts babyUID s' acts'
      | None => None
      end
  end.

(** Observations on the trace of the watchdog. *)

Definition is_WdRun (ev : wd_event) : bool :=
  match ev with WdRun _ _ _ _ => true | _ => false end.

(** The probes that were run to their end. *)
Definition probes (tr : list wd_event) : list wd_event :=
  List.filter is_WdRun tr.

Definition is_WdSelTimer (a : wd_action) : bool :=
  match a with WdSelTimer => true | _ => false end.

(** When the last probe of the trace returned; [e] if there is none. *)
Fixpoint last_end (e : option Z) (tr : list wd_event) : option Z :=
  match tr with
  | [] => e
  | WdRun _ _ _ ended :: tr' => last_end (Some ended) tr'
  | _ :: tr' => last_end e tr'
  end.

(** Every probe starts at least [gap] after the probe before it returned
    ([e], to begin with). *)
Fixpoint spaced (gap : Z) (e : option Z) (tr : list wd_event) : bool :=
  match tr with
  | [] => true
  | WdRun _ _ started ended :: tr' =>
      match e with
      | Some e' => e' + gap <=? started
      | None => true
      end && (started <=? ended) && spaced gap (Some ended) tr'
  | _ :: tr' => spaced gap e tr'
  end.

Definition State_eqb (a b : State) : bool :=
  match State_StreamState a, State_StreamState b with
  | Some x, Some y => StreamState_eqb x y
  | None, None => true
  | _, _ => false
  end
  && match State_StreamRequestState a, State_StreamRequestState b with
     | Some x, Some y => StreamRequestState_eqb x y
     | None, None => true
     | _, _ => false
     end.

(** Every probe is followed at once by the update of the liveness of
    [babyUID] to Unhealthy. *)
Fixpoint demoted (babyUID : string) (tr : list wd_event) : bool :=
  match tr with
  | [] => true
  | WdRun uid _ _ _ :: tr' =>
      match tr' with
      | WdUpdate uid' delta :: _ =>
          String.eqb uid babyUID && String.eqb uid' babyUID
          && State_eqb delta unhealthy
      | _ => false
      end && demoted babyUID tr'
  | _ :: tr' => demoted babyUID tr'
  end.

(** [e] is not later than [t], if there is an [e]. *)
Definition not_after (e : option Z) (t : Z) : Prop :=
  match e with
  | Some e' => e' <= t
  | None => True
  end.

(** [t] is at least [gap] after [e], if there is an [e]. *)
Definition well_after (gap : Z) (e : option Z) (t : Z) : Prop :=
  match e with
  | Some e' => e' + gap <= t
  | None => True
  end.

(** What holds of the watchdog of [babyUID] between two steps; [acts] is
    the schedule so far. *)
Definition wd_inv (babyUID : string) (acts : list wd_action) (s : wd_state) : Prop :=
  spaced (5 * Time.Second) None (wd_trace s) = true /\
  demoted babyUID (wd_trace s) = true /\
  length (List.filter is_WdSelTimer acts)
    = (length (probes (wd_trace s)) + (if in_probe s then 1 else 0))%nat /\
  match wd_pc s with
  | WdSelect =>
      exists at_, wd_timer s = Some at_ /\
        well_after (5 * Time.Second) (last_end None (wd_trace s)) at_
  | WdProbing started p =>
      started <= wd_now s /\
      well_after (5 * Time.Second) (last_end None (wd_trace s)) started /\
      Probe.ctxDone p = wd_ctxDone s /\
      exists pacts, Probe.run (Probe.init babyUID) pacts = Some p
  | WdChecking | WdResetting =>
      not_after (last_end None (wd_trace s)) (wd_now s)
  | WdReturned => True
  end.

End App.

(* ===================================================================== *)
(** ** Package strings, as far as package app uses it *)
(* ===================================================================== *)

Module Strings.

(** strings.Split(s, sep) for a separator of one byte: the pieces of [s]
    between the occurrences of [sep]; one piece, the empty one, for the
    empty string. *)
Fixpoint Split (s : string) (sep : ascii) : list string :=
  match s with
  | EmptyString => [EmptyString]
  | String c s' =>
      if Ascii.eqb c sep then EmptyString :: Split s' sep
      else match Split s' sep with
           | t :: ts => String c t :: ts
           | [] => [String c EmptyString]
           end
  end.

(** strings.Join(elems, sep) *)
Fixpoint Join (elems : list string) (sep : string) : string :=
  match elems with
  | [] => EmptyString
  | [t] => t
  | t :: ts => (t ++ sep ++ Join ts sep)%string
  end.

(** The first pair, in the order of the arguments of strings.NewReplacer,
    whose old string begins the text. *)
Definition find_old (pairs : list (string * string)) (s : string)
    : option (string * string) :=
  List.find (fun p => String.prefix (fst p) s) pairs.

(** strings.NewReplacer(old1, new1, old2, new2, ...).Replace(s), for old
    strings that are not empty: the text is read from the left; where an
    old string begins it is replaced by its new string and reading goes on
    after it, so that replaced text is not read again and matches do not
    overlap. [skip] counts the bytes of a match still to pass over. *)
Fixpoint Replace_from (pairs : list (string * string)) (skip : nat) (s : string)
    : string :=
  match s with
  | EmptyString => EmptyString
  | String c s' =>
      match skip with
      | S skip' => Replace_from pairs skip' s'
      | O =>
          match find_old pairs s with
          | Some (old, new) =>
              (new ++ Replace_from pairs (String.length old - 1) s')%string
          | None => String c (Replace_from pairs 0 s')
          end
      end
  end.

Definition Replace (pairs : list (string * string)) (s : string) : string :=
  Replace_from pairs 0 s.

(** Whether the byte [c] occurs in [s]. *)
Fixpoint contains_byte (c : ascii) (s : string) : bool :=
  match s with
  | EmptyString => false
  | String c' s' => Ascii.eqb c' c || contains_byte c s'
  end.

(** How often the byte [c] occurs in [s]. *)
Fixpoint count_byte (c : ascii) (s : string) : nat :=
  match s with
  | EmptyString => 0
  | String c' s' => (if Ascii.eqb c' c then 1 else 0) + count_byte c s'
  end.

End Strings.

(* ===================================================================== *)
(** ** pkg/app/app.go: the command line of the stream processor and the
       URL templates *)
(* ===================================================================== *)

Module AppCommand.
Import App.

(** getRemoteStreamURL *)
Definition getRemoteStreamURL (authToken babyUID : string) : string :=
  ("rtmps://media-secured.nanit.com/nanit/" ++ babyUID ++ "." ++ authToken)%string.

(** getLocalStreamURL as it is written: the template and the replacer. *)
Definition getLocalStreamURL_tpl (opts : Opts) (babyUID : string) : string :=
  match RTMP opts with
  | Some rtmp =>
      Strings.Replace [("{publicAddr}"%string, PublicAddr rtmp);
                       ("{babyUid}"%string, babyUID)]
                      "rtmp://{publicAddr}/local/{babyUid}"
  | None => ""%string
  end.

(** cmdTokens of runStreamProcess(baby, attempt utils.AttemptContext) *)
Definition cmdTokens (commandTemplate url babyUID : string) : list string :=
  Strings.Split
    (Strings.Replace [("{sourceUrl}"%string, url); ("{babyUid}"%string, babyUID)]
                     commandTemplate)
    " ".

(** cmdTokens of the later runStreamProcess(babyUID, name, commandTemplate,
    attempt) *)
Definition cmdTokens' (commandTemplate remoteStreamURL localStreamURL babyUID : string)
    : list string :=
  Strings.Split
    (Strings.Replace [("{remoteStreamUrl}"%string, remoteStreamURL);
                      ("{localStreamUrl}"%string, localStreamURL);
                      ("{babyUid}"%string, babyUID)]
                     commandTemplate)
    " ".

(** Whether every old string of the replacer starts with an opening
    brace, as the placeholders of package app do. *)
Definition braces (pairs : list (string * string)) : bool :=
  forallb (fun p => match fst p with
                    | String c _ => Ascii.eqb c "{"
                    | EmptyString => false
                    end) pairs.

End AppCommand.

(* ===================================================================== *)
(** ** Further observations on the schedules of the probe *)
(* ===================================================================== *)

Module ProbeObs.
Import Probe.

Definition is_SelCtxDone (a : action) : bool :=
  match a with SelCtxDone => true | _ => false end.

Definition is_SelDecoder (a : action) : bool :=
  match a with SelDecoder => true | _ => false end.

Definition is_SelExited (a : action) : bool :=
  match a with SelExited => true | _ => false end.

Definition kills (tr : list event) : nat := length (List.filter is_kill tr).

(** How the kills in the trace are accounted for by the schedule. *)
Definition kill_inv (acts : list action) (s : state) : Prop :=
  kills (trace s) =
    length (List.filter is_SelDecoder acts)
      + (if existsb is_SelCtxDone acts then 1 else 0) /\
  (main s = MainSelect ->
   (exitingFlag s = true <-> existsb is_SelCtxDone acts = true)) /\
  (decoder s <> DecReturned ->
   decoderC s = None /\ List.filter is_SelDecoder acts = []) /\
  (decoderC s <> None -> List.filter is_SelDecoder acts = []) /\
  (decoderC s <> Some DecodeOk) /\
  length (List.filter is_SelDecoder acts) <= 1.

(** What the schedule holds when the select loop has left the select. *)
Definition return_inv (acts : list action) (s : state) : Prop :=
  (forall c, exitCode s = Some c -> In (ProcExit c) acts) /\
  (main s <> MainSelect ->
   exitingFlag s = true /\ existsb is_SelExited acts = true /\
   exists c, exitCode s = Some c).

End ProbeObs.

(* ===================================================================== *)
(** * Properties *)
(* ===================================================================== *)

(** ** The matcher *)

Module RegexpFacts.
Import Regexp.

Lemma strip_spec (l s s' : list ascii) : strip l s = Some s' <-> s = l ++ s'.
Proof.
  revert s. induction l as [|a l IH]; intros s; simpl.
  - split; congruence.
  - destruct s as [|b s]; [split; discriminate|].
    destruct (Ascii.eqb_spec a b) as [->|Hne].
    + rewrite IH. split; congruence.
    + split; [discriminate | congruence].
Qed.

Lemma in_run_bol e s' pos s :
  In (e, s') (run Bol pos s) <-> pos = 0 /\ e = 0 /\ s' = s.
Proof.
  simpl. destruct (Nat.eqb_spec pos 0) as [->|Hne]; simpl.
  - intuition congruence.
  - intuition.
Qed.

Lemma in_run_eol e s' pos s :
  In (e, s') (run Eol pos s) <-> s = [] /\ s' = [] /\ e = pos.
Proof.
  simpl. destruct s; simpl; intuition congruence.
Qed.

Lemma in_run_lit l e s' pos s :
  In (e, s') (run (Lit l) pos s) <-> s = l ++ s' /\ e = pos + length l.
Proof.
  simpl. destruct (strip l s) as [t|] eqn:E; simpl.
  - apply strip_spec in E. subst s. split.
    + intros [[= <- <-]|[]]. auto.
    + intros [H ->]. apply app_inv_head in H. subst. auto.
  - split; [tauto|]. intros [H _]. apply strip_spec in H. congruence.
Qed.

Lemma in_run_class p e s' pos s :
  In (e, s') (run (Class p) pos s) <-> exists c, s = c :: s' /\ p c = true /\ e = S pos.
Proof.
  simpl. destruct s as [|c s]; simpl.
  - split; [tauto|]. intros (c & H & _). discriminate.
  - destruct (p c) eqn:E; simpl.
    + split.
      * intros [[= <- <-]|[]]. eauto.
      * intros (c' & [= <- <-] & _ & ->). auto.
    + split; [tauto|]. intros (c' & [= <- <-] & H & _). congruence.
Qed.

Lemma in_run_cat r1 r2 e s' pos s :
  In (e, s') (run (r1 <.> r2) pos s) <->
  exists e1 s1, In (e1, s1) (run r1 pos s) /\ In (e, s') (run r2 e1 s1).
Proof.
  simpl. rewrite in_flat_map. split.
  - intros ([e1 s1] & H1 & H2). eauto.
  - intros (e1 & s1 & H1 & H2). exists (e1, s1). auto.
Qed.

Lemma in_run_quest r e s' pos s :
  In (e, s') (run (Quest r) pos s) <->
  In (e, s') (run r pos s) \/ (e = pos /\ s' = s).
Proof.
  simpl. rewrite in_app_iff. simpl. intuition congruence.
Qed.

Section PlusClass.
Variable p : ascii -> bool.

Lemma plus_loop_class_step fuel pos c t :
  p c = true ->
  plus_loop (run (Class p)) (S fuel) pos (c :: t) =
  plus_loop (run (Class p)) fuel (S pos) t ++ [(S pos, t)].
Proof.
  intros Hc. simpl. rewrite Hc. simpl.
  replace (pos <? S pos) with true by (symmetry; apply Nat.ltb_lt; lia).
  now rewrite app_nil_r.
Qed.

Lemma plus_loop_class_stop fuel pos s :
  starts_with p s = false -> plus_loop (run (Class p)) fuel pos s = [].
Proof.
  intros Hs. destruct fuel as [|fuel]; [reflexivity|].
  simpl. destruct s as [|c t]; [reflexivity|].
  simpl in Hs. now rewrite Hs.
Qed.

Lemma in_plus_loop_class fuel pos s e s' :
  length s < fuel ->
  In (e, s') (plus_loop (run (Class p)) fuel pos s) <->
  exists u, u <> [] /\ forallb p u = true /\ s = u ++ s' /\ e = pos + length u.
Proof.
  revert pos s. induction fuel as [|fuel IH]; intros pos s Hlen; [lia|].
  destruct s as [|c t].
  - simpl. split; [tauto|]. intros (u & Hu & _ & Hs & _).
    destruct u; [congruence | discriminate].
  - destruct (p c) eqn:Hc.
    + rewrite plus_loop_class_step by assumption.
      rewrite in_app_iff. simpl in Hlen. rewrite IH by lia. simpl. split.
      * intros [(u & Hu & Hall & -> & ->)|[[= <- <-]|[]]].
        -- exists (c :: u). simpl. rewrite Hc, Hall.
           repeat split; [discriminate | lia].
        -- exists [c]. simpl. rewrite Hc. repeat split; [discriminate | lia].
      * intros (u & Hu & Hall & Hs & ->).
        destruct u as [|c' u]; [congruence|].
        simpl in Hs, Hall. injection Hs as <- ->.
        apply andb_true_iff in Hall as [_ Hall].
        destruct u as [|c'' u].
        -- right. left. simpl. f_equal. lia.
        -- left. exists (c'' :: u). repeat split; [discriminate | assumption | simpl; lia].
    + rewrite plus_loop_class_stop by (simpl; assumption).
      split; [intros []|]. intros (u & Hu & Hall & Hs & _).
      destruct u as [|c' u]; [congruence|].
      simpl in Hs, Hall. injection Hs as <- ->.
      apply andb_true_iff in Hall as [Hall _]. congruence.
Qed.

(** The preferred result of a greedy class repetition is the longest
    run of class members. *)
Lemma hd_plus_loop_class fuel pos s :
  length s < fuel ->
  match plus_loop (run (Class p)) fuel pos s with
  | [] => starts_with p s = false
  | (e, s') :: _ =>
      exists u, u <> [] /\ forallb p u = true /\ s = u ++ s' /\
                e = pos + length u /\ starts_with p s' = false
  end.
Proof.
  revert pos s. induction fuel as [|fuel IH]; intros pos s Hlen; [lia|].
  destruct s as [|c t]; [reflexivity|].
  destruct (p c) eqn:Hc.
  - rewrite plus_loop_class_step by assumption.
    simpl in Hlen. specialize (IH (S pos) t ltac:(lia)).
    destruct (plus_loop (run (Class p)) fuel (S pos) t) as [|[e s'] rest]; simpl.
    + exists [c]. simpl. rewrite Hc. repeat split; [discriminate | lia | assumption].
    + destruct IH as (u & Hu & Hall & -> & -> & Hstop).
      exists (c :: u). simpl. rewrite Hc, Hall.
      repeat split; [discriminate | lia | assumption].
  - rewrite plus_loop_class_stop by (simpl; assumption). simpl. assumption.
Qed.

Lemma in_run_plus_class e s' pos s :
  In (e, s') (run (Plus (Class p)) pos s) <->
  exists u, u <> [] /\ forallb p u = true /\ s = u ++ s' /\ e = pos + length u.
Proof.
  change (run (Plus (Class p)) pos s)
    with (plus_loop (run (Class p)) (S (length s)) pos s).
  apply in_plus_loop_class. lia.
Qed.

Lemma hd_run_plus_class pos s :
  match run (Plus (Class p)) pos s with
  | [] => starts_with p s = false
  | (e, s') :: _ =>
      exists u, u <> [] /\ forallb p u = true /\ s = u ++ s' /\
                e = pos + length u /\ starts_with p s' = false
  end.
Proof.
  change (run (Plus (Class p)) pos s)
    with (plus_loop (run (Class p)) (S (length s)) pos s).
  apply hd_plus_loop_class. lia.
Qed.
End PlusClass.

Lemma anchored_run r pos s : anchored r = true -> run r (S pos) s = [].
Proof.
  revert pos s. induction r; intros pos s Ha; simpl in *; try discriminate.
  - reflexivity.
  - now rewrite IHr1.
Qed.

Lemma search_anchored_later r pos s : anchored r = true -> search r (S pos) s = None.
Proof.
  intros Ha. revert pos. induction s as [|c s IH]; intros pos; simpl.
  - now rewrite anchored_run.
  - rewrite anchored_run by assumption. apply IH.
Qed.

Lemma search_anchored r s :
  anchored r = true ->
  search r 0 s = match run r 0 s with
                 | (e, _) :: _ => Some (0, e)
                 | [] => None
                 end.
Proof.
  intros Ha. destruct s as [|c s]; simpl.
  - destruct (run r 0 []) as [|[e ?] ?]; reflexivity.
  - destruct (run r 0 (c :: s)) as [|[e ?] ?]; [|reflexivity].
    now apply search_anchored_later.
Qed.

Lemma MatchString_anchored r s :
  anchored r = true ->
  MatchString r s = true <-> exists e s', In (e, s') (run r 0 s).
Proof.
  intros Ha. unfold MatchString. rewrite search_anchored by assumption.
  destruct (run r 0 s) as [|[e s'] l].
  - split; [discriminate|]. intros (? & ? & []).
  - split; [|reflexivity]. intros _. exists e, s'. now left.
Qed.

Lemma run_cat_eq r1 r2 pos s :
  run (r1 <.> r2) pos s = flat_map (fun '(pos', s') => run r2 pos' s') (run r1 pos s).
Proof. reflexivity. Qed.

Lemma hd_flat_map {A B} (f : A -> list B) (l : list A) (b : B) (bs : list B) :
  flat_map f l = b :: bs -> exists a bs', In a l /\ f a = b :: bs'.
Proof.
  induction l as [|a l IH]; simpl; [discriminate|].
  destruct (f a) as [|b' fs] eqn:E; simpl.
  - intros H. destruct (IH H) as (a' & bs' & Hin & Hf). eauto.
  - intros [= -> <-]. exists a, fs. auto.
Qed.

End RegexpFacts.

(** ** The log classifier *)

Module PlayerFacts.
Import Regexp RegexpFacts Player.

Local Opaque run.

Ltac inv_run :=
  repeat match goal with
    | H : In _ (run (Cat _ _) _ _) |- _ =>
        apply in_run_cat in H; destruct H as (? & ? & H & ?)
    | H : In _ (run Bol _ _) |- _ =>
        apply in_run_bol in H; destruct H as (? & ? & ?)
    | H : In _ (run Eol _ _) |- _ =>
        apply in_run_eol in H; destruct H as (? & ? & ?)
    | H : In _ (run (Lit _) _ _) |- _ =>
        apply in_run_lit in H; destruct H as [? ?]
    | H : In _ (run (Class _) _ _) |- _ =>
        apply in_run_class in H; destruct H as (? & ? & ? & ?)
    | H : In _ (run (Quest _) _ _) |- _ =>
        apply in_run_quest in H; destruct H as [H | [? ?]]
    | H : In _ (run (Plus (Class _)) _ _) |- _ =>
        apply in_run_plus_class in H; destruct H as (? & ? & ? & ? & ?)
    end.

(** Building a match from the left: each step consumes one factor of a
    concatenation. *)
Lemma run_cat_intro r1 r2 pos s e1 s1 e s' :
  In (e1, s1) (run r1 pos s) -> In (e, s') (run r2 e1 s1) ->
  In (e, s') (run (r1 <.> r2) pos s).
Proof. intros. apply in_run_cat. eauto. Qed.

Lemma run_lit_intro l pos s' : In (pos + length l, s') (run (Lit l) pos (l ++ s')).
Proof. apply in_run_lit. auto. Qed.

Lemma run_class_intro p pos c s' :
  p c = true -> In (S pos, s') (run (Class p) pos (c :: s')).
Proof. intros. apply in_run_class. eauto. Qed.

Lemma run_plus_intro p pos u s' :
  u <> [] -> forallb p u = true ->
  In (pos + length u, s') (run (Plus (Class p)) pos (u ++ s')).
Proof. intros. apply in_run_plus_class. eauto. Qed.

Lemma run_bol_intro s : In (0, s) (run Bol 0 s).
Proof. apply in_run_bol. auto. Qed.

Lemma run_eol_intro pos : In (pos, []) (run Eol pos []).
Proof. apply in_run_eol. auto. Qed.

Ltac build_leaf :=
  first [ apply run_bol_intro
        | apply run_eol_intro
        | apply run_lit_intro
        | apply run_class_intro; assumption
        | apply run_plus_intro; assumption ].

Ltac build_run :=
  lazymatch goal with
  | |- In _ (run (Cat _ _) _ _) => eapply run_cat_intro; [build_run | build_leaf]
  | |- _ => build_leaf
  end.

(** The decimal sub-pattern shared by the start and end patterns. *)
Lemma decimal_run r pos s n rest e0 :
  In (e0, n ++ rest) (run r pos s) ->
  decimal n ->
  exists e, In (e, rest)
              (run (r <.> Quest (Lit (bytes "-")) <.> Plus (Class cls_digit)
                      <.> Quest (Lit (bytes ".") <.> Plus (Class cls_digit)))
                   pos s).
Proof.
  intros Hr (sg & ip & fr & -> & Hsg & [Hip1 Hip2] & Hfr).
  rewrite <- !app_assoc in Hr.
  assert (exists e1, In (e1, ip ++ fr ++ rest)
                        (run (r <.> Quest (Lit (bytes "-"))) pos s)) as [e1 H1].
  { destruct Hsg as [-> | ->].
    - eexists. eapply run_cat_intro; [exact Hr|].
      apply in_run_quest. right. split; reflexivity.
    - eexists. eapply run_cat_intro; [exact Hr|].
      apply in_run_quest. left. apply run_lit_intro. }
  assert (In (e1 + length ip, fr ++ rest)
             (run (r <.> Quest (Lit (bytes "-")) <.> Plus (Class cls_digit)) pos s))
    as H2.
  { eapply run_cat_intro; [exact H1|]. now apply run_plus_intro. }
  destruct Hfr as [-> | (fp & -> & Hfp1 & Hfp2)].
  - eexists. eapply run_cat_intro; [exact H2|].
    apply in_run_quest. right. split; reflexivity.
  - rewrite <- app_assoc in H2.
    eexists. eapply run_cat_intro; [exact H2|].
    apply in_run_quest. left.
    eapply run_cat_intro; [apply run_lit_intro|]. now apply run_plus_intro.
Qed.

Lemma decimal_int sg ip :
  sg = [] \/ sg = bytes "-" -> digits ip -> decimal (sg ++ ip).
Proof.
  intros Hsg Hip. exists sg, ip, []. rewrite app_nil_r. auto.
Qed.

Lemma decimal_frac sg ip fp :
  sg = [] \/ sg = bytes "-" -> digits ip -> digits fp ->
  decimal (((sg ++ ip) ++ bytes ".") ++ fp).
Proof.
  intros Hsg Hip Hfp. exists sg, ip, (bytes "." ++ fp).
  rewrite <- !app_assoc. repeat split; try tauto; try apply Hip. eauto.
Qed.

Lemma run_decimal r pos s e rest :
  In (e, rest)
     (run (r <.> Quest (Lit (bytes "-")) <.> Plus (Class cls_digit)
             <.> Quest (Lit (bytes ".") <.> Plus (Class cls_digit)))
          pos s) ->
  exists e0 n, In (e0, n ++ rest) (run r pos s) /\ decimal n.
Proof.
  intros H. inv_run; subst; rewrite ?app_assoc in H;
    (eexists _, _; split; [exact H|]).
  all: first
    [ apply (decimal_frac (bytes "-")); [now right | now split | now split]
    | apply (decimal_frac []); [now left | now split | now split]
    | apply (decimal_int (bytes "-")); [now right | now split]
    | apply (decimal_int []); [now left | now split] ].
Qed.

Lemma start_match_iff (w : list ascii) :
  MatchString ffmpegSilenceDetectStartRX w = true <->
  exists c n, w = bytes "silence_start:" ++ c :: n /\ cls_space c = true /\ decimal n.
Proof.
  rewrite MatchString_anchored by reflexivity. split.
  - intros (e & s' & H). unfold ffmpegSilenceDetectStartRX in H.
    apply in_run_cat in H. destruct H as (e1 & s1 & H & Hend).
    apply in_run_eol in Hend. destruct Hend as (-> & -> & ->).
    apply run_decimal in H. destruct H as (e0 & n & H & Hn).
    rewrite app_nil_r in H. inv_run; subst.
    eexists _, _. split; [reflexivity|]. split; assumption.
  - intros (c & n & -> & Hc & Hn).
    assert (In (0 + length (bytes "silence_start:") + 1, n ++ [])
               (run (Bol <.> Lit (bytes "silence_start:") <.> Class cls_space)
                    0 (bytes "silence_start:" ++ c :: n))) as H.
    { rewrite app_nil_r.
      eapply run_cat_intro; [eapply run_cat_intro; [apply run_bol_intro|apply run_lit_intro]|].
      rewrite Nat.add_1_r. now apply run_class_intro. }
    destruct (decimal_run _ _ _ _ _ _ H Hn) as [e He].
    exists e, []. unfold ffmpegSilenceDetectStartRX.
    eapply run_cat_intro; [exact He|]. apply run_eol_intro.
Qed.

Lemma end_match_iff (w : list ascii) :
  MatchString ffmpegSilenceDetectEndRX w = true <->
  exists c n rest,
    w = bytes "silence_end:" ++ c :: n ++ rest /\ cls_space c = true /\ decimal n.
Proof.
  rewrite MatchString_anchored by reflexivity. split.
  - intros (e & s' & H). unfold ffmpegSilenceDetectEndRX in H.
    apply run_decimal in H. destruct H as (e0 & n & H & Hn).
    inv_run; subst.
    eexists _, _, _. split; [reflexivity|]. split; assumption.
  - intros (c & n & rest & -> & Hc & Hn).
    assert (In (0 + length (bytes "silence_end:") + 1, n ++ rest)
               (run (Bol <.> Lit (bytes "silence_end:") <.> Class cls_space)
                    0 (bytes "silence_end:" ++ c :: n ++ rest))) as H.
    { eapply run_cat_intro; [eapply run_cat_intro; [apply run_bol_intro|apply run_lit_intro]|].
      rewrite Nat.add_1_r. now apply run_class_intro. }
    destruct (decimal_run _ _ _ _ _ _ H Hn) as [e He].
    exists e, rest. exact He.
Qed.

(** A maximal run of class members is determined by the text. *)
Lemma span_unique (p : ascii -> bool) (u1 u2 t1 t2 : list ascii) :
  forallb p u1 = true -> forallb p u2 = true ->
  starts_with p t1 = false -> starts_with p t2 = false ->
  u1 ++ t1 = u2 ++ t2 -> u1 = u2 /\ t1 = t2.
Proof.
  revert u2. induction u1 as [|a u1 IH]; intros [|b u2]; simpl;
    intros H1 H2 Ht1 Ht2 Heq.
  - auto.
  - subst t1. simpl in Ht1. apply andb_true_iff in H2 as [H2 _]. congruence.
  - subst t2. simpl in Ht2. apply andb_true_iff in H1 as [H1 _]. congruence.
  - injection Heq as <- Heq.
    apply andb_true_iff in H1 as [_ H1]. apply andb_true_iff in H2 as [_ H2].
    destruct (IH u2 H1 H2 Ht1 Ht2 Heq) as [-> ->]. auto.
Qed.

Lemma in_run_tagRX e s' line :
  In (e, s') (run tagRX 0 line) <->
  exists w1 w2 hx,
    line = bytes "[silencedetect" ++ w1 :: bytes "@" ++ w2 :: bytes "0x"
             ++ hx ++ bytes "]" ++ s' /\
    cls_space w1 = true /\ cls_space w2 = true /\
    hx <> [] /\ forallb cls_hex hx = true /\
    e = 20 + length hx.
Proof.
  unfold tagRX. split.
  - intros H. inv_run; subst. eexists _, _, _. split; [reflexivity|].
    repeat split; try assumption. simpl. lia.
  - intros (w1 & w2 & hx & -> & Hw1 & Hw2 & Hhx1 & Hhx2 & ->).
    match goal with
    | |- In (_, ?t) (run ?r ?pos ?l) =>
        eassert (In (_, t) (run r pos l)) as H by build_run
    end.
    match type of H with
    | In (?e, _) _ => replace (20 + length hx) with e by (simpl; lia)
    end.
    exact H.
Qed.

Lemma tool_tag_nonempty p : tool_tag p -> p <> [].
Proof. intros (w1 & w2 & hx & ws & -> & _). discriminate. Qed.

Lemma tool_tag_unique p1 p2 r1 r2 :
  tool_tag p1 -> tool_tag p2 ->
  starts_with cls_space r1 = false -> starts_with cls_space r2 = false ->
  p1 ++ r1 = p2 ++ r2 -> p1 = p2 /\ r1 = r2.
Proof.
  intros (w1 & w2 & hx & ws & -> & _ & _ & _ & Hhx & _ & Hws)
         (w1' & w2' & hx' & ws' & -> & _ & _ & _ & Hhx' & _ & Hws') Hr1 Hr2 Heq.
  cbn in Heq. injection Heq as <- <- Heq.
  rewrite <- !app_assoc in Heq.
  apply span_unique with (p := cls_hex) in Heq as [<- Heq];
    [|assumption|assumption|reflexivity|reflexivity].
  cbn in Heq. injection Heq as Heq.
  apply span_unique with (p := cls_space) in Heq as [<- <-]; auto.
Qed.

(** What [FindString] returns for the prefix pattern: the tool tag with
    all the blanks that follow it, or nothing. *)
Lemma find_prefix_cases (line : list ascii) :
  match run ffmpegSilenceDetectPrefixRX 0 line with
  | [] => FindString ffmpegSilenceDetectPrefixRX line = []
  | _ :: _ =>
      exists p rest,
        FindString ffmpegSilenceDetectPrefixRX line = p /\ line = p ++ rest /\
        tool_tag p /\ starts_with cls_space rest = false
  end.
Proof.
  unfold FindString. rewrite search_anchored by reflexivity.
  change ffmpegSilenceDetectPrefixRX with (tagRX <.> Plus (Class cls_space)).
  destruct (run (tagRX <.> Plus (Class cls_space)) 0 line) as [|[e s'] l] eqn:E;
    [reflexivity|].
  rewrite run_cat_eq in E. apply hd_flat_map in E.
  destruct E as ([e1 s1] & bs & Hin & E).
  pose proof (hd_run_plus_class cls_space e1 s1) as Hhd.
  rewrite E in Hhd. destruct Hhd as (ws & Hws1 & Hws2 & -> & -> & Hstop).
  apply in_run_tagRX in Hin.
  destruct Hin as (w1 & w2 & hx & -> & Hw1 & Hw2 & Hhx1 & Hhx2 & ->).
  set (p := bytes "[silencedetect" ++ w1 :: bytes "@" ++ w2 :: bytes "0x"
              ++ hx ++ bytes "]" ++ ws).
  assert (Hline : bytes "[silencedetect" ++ w1 :: bytes "@" ++ w2 :: bytes "0x"
                    ++ hx ++ bytes "]" ++ ws ++ s' = p ++ s').
  { unfold p. simpl. now rewrite <- !app_assoc. }
  assert (Hlen : 20 + length hx + length ws - 0 = length p).
  { unfold p. simpl. rewrite !length_app. simpl. lia. }
  rewrite Hline, Hlen, drop_0, take_app_length.
  exists p, s'. repeat split; [|assumption].
  exists w1, w2, hx, ws. now repeat split.
Qed.

Lemma run_prefix_intro w1 w2 hx ws rest :
  cls_space w1 = true -> cls_space w2 = true ->
  hx <> [] -> forallb cls_hex hx = true ->
  ws <> [] -> forallb cls_space ws = true ->
  In (20 + length hx + length ws, rest)
     (run ffmpegSilenceDetectPrefixRX 0
          ((bytes "[silencedetect" ++ w1 :: bytes "@" ++ w2 :: bytes "0x"
              ++ hx ++ bytes "]" ++ ws) ++ rest)).
Proof.
  intros Hw1 Hw2 Hhx1 Hhx2 Hws1 Hws2.
  replace ((bytes "[silencedetect" ++ w1 :: bytes "@" ++ w2 :: bytes "0x"
              ++ hx ++ bytes "]" ++ ws) ++ rest)
    with (bytes "[silencedetect" ++ w1 :: bytes "@" ++ w2 :: bytes "0x"
              ++ hx ++ bytes "]" ++ ws ++ rest)
    by (simpl; now rewrite <- !app_assoc).
  change ffmpegSilenceDetectPrefixRX with (tagRX <.> Plus (Class cls_space)).
  eapply run_cat_intro.
  - apply in_run_tagRX. exists w1, w2, hx. split; [reflexivity|]. now repeat split.
  - now apply run_plus_intro.
Qed.

Lemma find_prefix_complete (p rest : list ascii) :
  tool_tag p -> starts_with cls_space rest = false ->
  FindString ffmpegSilenceDetectPrefixRX (p ++ rest) = p.
Proof.
  intros Hp Hrest.
  pose proof (find_prefix_cases (p ++ rest)) as Hs.
  assert (Hin : exists e, In (e, rest) (run ffmpegSilenceDetectPrefixRX 0 (p ++ rest))).
  { destruct Hp as (w1 & w2 & hx & ws & -> & Hw1 & Hw2 & Hhx1 & Hhx2 & Hws1 & Hws2).
    eexists. now apply run_prefix_intro. }
  destruct Hin as [e Hin].
  destruct (run ffmpegSilenceDetectPrefixRX 0 (p ++ rest)); [destruct Hin|].
  destruct Hs as (p' & rest' & -> & Heq & Hp' & Hrest').
  destruct (tool_tag_unique _ _ _ _ Hp Hp' Hrest Hrest' Heq) as [-> _].
  reflexivity.
Qed.

(** A line that begins with a tool tag always has a non-empty prefix. *)
Lemma find_prefix_none (line : list ascii) :
  FindString ffmpegSilenceDetectPrefixRX line = [] ->
  forall p rest, tool_tag p -> line <> p ++ rest.
Proof.
  intros Hnone p rest Hp ->.
  pose proof (find_prefix_cases (p ++ rest)) as Hs.
  assert (Hin : exists e s', In (e, s') (run ffmpegSilenceDetectPrefixRX 0 (p ++ rest))).
  { destruct Hp as (w1 & w2 & hx & ws & -> & Hw1 & Hw2 & Hhx1 & Hhx2 & Hws1 & Hws2).
    eexists _, _. now apply run_prefix_intro. }
  destruct Hin as (e & s' & Hin).
  destruct (run ffmpegSilenceDetectPrefixRX 0 _); [destruct Hin|].
  destruct Hs as (p' & rest' & Hf & _ & Hp' & _).
  apply tool_tag_nonempty in Hp'. congruence.
Qed.

(** The lines of the comments of silencedetect.go, and some that are not
    classified. *)
Example classify_start :
  parseSilenceDetectLog (bytes "[silencedetect @ 0x7fc1f3625880] silence_start: 0")
  = ffmpegSilenceDetectEvent_start.
Proof. vm_compute. reflexivity. Qed.

Example classify_start_negative :
  parseSilenceDetectLog (bytes "[silencedetect @ 0x7fc1f3625880]   silence_start: -0.5")
  = ffmpegSilenceDetectEvent_start.
Proof. vm_compute. reflexivity. Qed.

Example classify_end_with_duration :
  parseSilenceDetectLog
    (bytes "[silencedetect @ 0x7fc1f3625880] silence_end: 2.21243 | silence_duration: 2.21243")
  = ffmpegSilenceDetectEvent_end.
Proof. vm_compute. reflexivity. Qed.

Example classify_start_trailing_blank :
  parseSilenceDetectLog (bytes "[silencedetect @ 0x7fc1f3625880] silence_start: 0 ")
  = ffmpegSilenceDetectEvent_unknown.
Proof. vm_compute. reflexivity. Qed.

Example classify_prefix_only :
  parseSilenceDetectLog (bytes "[silencedetect @ 0x7fc1f3625880] ")
  = ffmpegSilenceDetectEvent_unknown.
Proof. vm_compute. reflexivity. Qed.

Example classify_no_prefix :
  parseSilenceDetectLog (bytes "silence_end: 2.21243")
  = ffmpegSilenceDetectEvent_unknown.
Proof. vm_compute. reflexivity. Qed.

Example classify_upper_case_address :
  parseSilenceDetectLog (bytes "[silencedetect @ 0x7FC1] silence_start: 0")
  = ffmpegSilenceDetectEvent_unknown.
Proof. vm_compute. reflexivity. Qed.

(** [parseSilenceDetectLog] in terms of the split of the line into tool
    tag and remainder. *)
Lemma parse_cases (line : list ascii) :
  (parseSilenceDetectLog line = ffmpegSilenceDetectEvent_unknown /\
   forall p rest, tool_tag p -> line <> p ++ rest) \/
  (exists p rest,
      line = p ++ rest /\ tool_tag p /\ starts_with cls_space rest = false /\
      parseSilenceDetectLog line =
        if MatchString ffmpegSilenceDetectStartRX rest
        then ffmpegSilenceDetectEvent_start
        else if MatchString ffmpegSilenceDetectEndRX rest
             then ffmpegSilenceDetectEvent_end
             else ffmpegSilenceDetectEvent_unknown).
Proof.
  unfold parseSilenceDetectLog.
  pose proof (find_prefix_cases line) as Hc.
  pose proof (find_prefix_none line) as Hn.
  destruct (run ffmpegSilenceDetectPrefixRX 0 line) as [|x l].
  - rewrite Hc in *. left. auto.
  - destruct Hc as (p & rest & -> & Hline & Hp & Hrest).
    right. exists p, rest. repeat split; try assumption.
    pose proof (tool_tag_nonempty _ Hp) as Hne.
    destruct p as [|a p'] eqn:Ep; [congruence|]. rewrite <- Ep in *.
    rewrite Hline, drop_app_length. reflexivity.
Qed.

Lemma classify_start_iff (line : list ascii) :
  parseSilenceDetectLog line = ffmpegSilenceDetectEvent_start <-> start_line line.
Proof.
  split.
  - intros H. destruct (parse_cases line) as [[Hu _]|(p & rest & -> & Hp & Hrest & Hr)];
      [congruence|].
    rewrite Hr in H.
    destruct (MatchString ffmpegSilenceDetectStartRX rest) eqn:Es.
    + apply start_match_iff in Es. destruct Es as (c & n & -> & Hc & Hn).
      exists p, c, n. auto.
    + destruct (MatchString ffmpegSilenceDetectEndRX rest); discriminate.
  - intros (p & c & n & -> & Hp & Hc & Hn).
    destruct (parse_cases (p ++ bytes "silence_start:" ++ c :: n))
      as [[_ Hu]|(p' & rest' & Heq & Hp' & Hrest' & ->)].
    + exfalso. eapply Hu; [exact Hp | reflexivity].
    + apply tool_tag_unique in Heq as [<- <-]; try assumption; [|reflexivity].
      replace (MatchString ffmpegSilenceDetectStartRX (bytes "silence_start:" ++ c :: n))
        with true; [reflexivity|].
      symmetry. apply start_match_iff. exists c, n. auto.
Qed.

Lemma classify_end_iff (line : list ascii) :
  parseSilenceDetectLog line = ffmpegSilenceDetectEvent_end <-> end_line line.
Proof.
  split.
  - intros H. destruct (parse_cases line) as [[Hu _]|(p & rest & -> & Hp & Hrest & Hr)];
      [congruence|].
    rewrite Hr in H.
    destruct (MatchString ffmpegSilenceDetectStartRX rest); [discriminate|].
    destruct (MatchString ffmpegSilenceDetectEndRX rest) eqn:Ee; [|discriminate].
    apply end_match_iff in Ee. destruct Ee as (c & n & t & -> & Hc & Hn).
    exists p, c, n, t. auto.
  - intros (p & c & n & t & -> & Hp & Hc & Hn).
    destruct (parse_cases (p ++ bytes "silence_end:" ++ c :: n ++ t))
      as [[_ Hu]|(p' & rest' & Heq & Hp' & Hrest' & ->)].
    + exfalso. eapply Hu; [exact Hp | reflexivity].
    + apply tool_tag_unique in Heq as [<- <-]; try assumption; [|reflexivity].
      destruct (MatchString ffmpegSilenceDetectStartRX
                  (bytes "silence_end:" ++ c :: n ++ t)) eqn:Es.
      * apply start_match_iff in Es. destruct Es as (c' & n' & Heq & _).
        discriminate Heq.
      * replace (MatchString ffmpegSilenceDetectEndRX (bytes "silence_end:" ++ c :: n ++ t))
          with true; [reflexivity|].
        symmetry. apply end_match_iff. exists c, n, t. auto.
Qed.

Lemma decimal_length (n : list ascii) : decimal n -> 1 <= length n.
Proof.
  intros (sg & ip & fr & -> & _ & [Hip _] & _).
  rewrite !length_app. destruct ip; [congruence | simpl; lia].
Qed.

(** A decision procedure for [decimal], by the matcher itself. *)
Lemma decimal_match (n : list ascii) :
  decimal n ->
  MatchString (Bol <.> Quest (Lit (bytes "-")) <.> Plus (Class cls_digit)
                   <.> Quest (Lit (bytes ".") <.> Plus (Class cls_digit))
                   <.> Eol) n = true.
Proof.
  intros Hn. apply MatchString_anchored; [reflexivity|].
  assert (In (0, n ++ []) (run Bol 0 n)) as H
      by (rewrite app_nil_r; apply run_bol_intro).
  destruct (decimal_run _ _ _ _ _ _ H Hn) as [e He].
  exists e, []. eapply run_cat_intro; [exact He | apply run_eol_intro].
Qed.

End PlayerFacts.

(** ** The probe *)

Module ProbeFacts.
Import Probe.

Ltac step_cases H :=
  unfold step, step_ProcExit, step_TailDone, step_Cancel, step_DecHeader,
    step_DecTag, step_DecReport, step_SelExited, step_RecvTail,
    step_SelCtxDone, step_SelDecoder in H;
  repeat case_match; simplify_eq; simpl in *.

Lemma run_snoc s acts a :
  run s (acts ++ [a]) = match run s acts with
                        | Some s' => step s' a
                        | None => None
                        end.
Proof.
  revert s. induction acts as [|b acts IH]; intros s; simpl.
  - destruct (step s a); reflexivity.
  - destruct (step s b); [apply IH | reflexivity].
Qed.


(** Invariants are established along schedules. *)
Lemma run_invariant (P : list action -> state -> Prop) (s0 : state) :
  P [] s0 ->
  (forall acts s a s', run s0 acts = Some s -> P acts s ->
                       step s a = Some s' -> P (acts ++ [a]) s') ->
  forall acts s, run s0 acts = Some s -> P acts s.
Proof.
  intros H0 Hstep acts. induction acts as [|a acts IH] using rev_ind; intros s Hrun.
  - simpl in Hrun. now simplify_eq.
  - rewrite run_snoc in Hrun. destruct (run s0 acts) as [s1|] eqn:E; [|discriminate].
    eapply Hstep; eauto.
Qed.

(** *** The header is decoded at most once *)

Lemma step_alive_updates s a s' :
  step s a = Some s' ->
  babyUID s' = babyUID s /\
  alive_updates (trace s') =
    alive_updates (trace s)
      ++ (if is_header_ok a then [UpdateStreamAlive (babyUID s)] else []).
Proof.
  intros H. unfold alive_updates.
  destruct a; step_cases H;
    rewrite ?List.filter_app; simpl; rewrite ?app_nil_r; auto.
Qed.

Lemma step_decoder_started s a s' :
  step s a = Some s' -> decoder s <> DecNew ->
  decoder s' <> DecNew /\ is_header_ok a = false.
Proof.
  intros H Hd. destruct a; step_cases H; split; auto; congruence.
Qed.

Lemma step_header_ok s a s' :
  step s a = Some s' -> is_header_ok a = true -> decoder s' <> DecNew.
Proof.
  intros H Hd. destruct a; step_cases H; auto; congruence.
Qed.

Lemma run_decoder_started s acts s' :
  run s acts = Some s' -> decoder s <> DecNew ->
  existsb is_header_ok acts = false.
Proof.
  revert s. induction acts as [|a acts IH]; intros s Hrun Hd; simpl in *.
  - reflexivity.
  - destruct (step s a) as [s1|] eqn:E; [|discriminate].
    destruct (step_decoder_started _ _ _ E Hd) as [Hd1 ->].
    simpl. eauto.
Qed.

Lemma run_alive_updates s acts s' :
  run s acts = Some s' ->
  alive_updates (trace s') =
    alive_updates (trace s)
      ++ (if existsb is_header_ok acts then [UpdateStreamAlive (babyUID s)] else []).
Proof.
  revert s. induction acts as [|a acts IH]; intros s Hrun; simpl in *.
  - simplify_eq. now rewrite app_nil_r.
  - destruct (step s a) as [s1|] eqn:E; [|discriminate].
    destruct (step_alive_updates _ _ _ E) as [Huid Hstep].
    rewrite (IH _ Hrun), Hstep, Huid, <- app_assoc. f_equal.
    destruct (is_header_ok a) eqn:Ha; simpl.
    + now rewrite (run_decoder_started _ _ _ Hrun (step_header_ok _ _ _ E Ha)).
    + reflexivity.
Qed.

(** *** End of stream inside the loop *)

Lemma run_eof_in_loop s n :
  decoder s = DecLoop -> exitingFlag s = false ->
  run s (concat (repeat [DecTag DecodeEOF; DecReport] n)) =
    Some (emit s (repeat (Log Warn "Closed pipe") n)).
Proof.
  revert s. induction n as [|n IH]; intros s Hd Hf; simpl.
  - unfold emit. rewrite app_nil_r. now destruct s.
  - unfold step_DecTag. rewrite Hd, Hf. simpl.
    rewrite IH by (simpl; auto). f_equal.
    destruct s; simpl in *. subst. unfold emit, set_decoder. simpl.
    now rewrite <- app_assoc.
Qed.

(** When flv.NewDecoder meets the end of the stream, the error does
    reach the select loop, which kills the process. *)
Example eof_at_header_killed :
  option_map (fun s => (decoder s, trace s))
             (run (init "baby") [DecHeader DecodeEOF; DecReport; SelDecoder])
  = Some (DecReturned,
          [Log Info "Player started"; Log Warn "Closed pipe";
           Log Debug "Decoder failure, killing the process"; Kill]).
Proof. reflexivity. Qed.

(** So does an error other than the end of the stream inside the loop. *)
Example error_in_loop_killed :
  option_map (fun s => (decoder s, List.filter is_kill (trace s)))
             (run (init "baby")
                  [DecHeader DecodeOk; DecTag (DecodeErr "bad tag"); DecReport;
                   SelDecoder])
  = Some (DecReturned, [Kill]).
Proof. reflexivity. Qed.

(** *** Classification of the exit *)

Lemma Tail_bounded n input :
  length (LogTailer.lines (LogTailer.Tail (LogTailer.NewLogTailer n) input)) <= n.
Proof. unfold LogTailer.Tail. simpl. rewrite length_skipn. lia. Qed.

Local Arguments LogTailer.Tail : simpl never.

(** What a step changes of the parts of the state the exit is classified
    by. *)
Lemma step_frame s a s' :
  step s a = Some s' ->
  match a with
  | SelExited =>
      main s = MainSelect /\ stderrC s' = stderrC s /\
      exists c, exitCode s = Some c /\ exitCode s' = Some c /\
        if (c =? -1)%Z then
          main s' = MainReturned /\
          trace s' = trace s ++ [Log Warn "Player terminated"]
        else main s' = MainRecvTail c /\ trace s' = trace s
  | RecvTail =>
      exists c t, main s = MainRecvTail c /\ stderrC s = Some t /\
        main s' = MainReturned /\ stderrC s' = None /\
        exitCode s' = exitCode s /\
        trace s' = trace s ++ [LogExit c (LogTailer.lines t)]
  | ProcExit code =>
      exitCode s = None /\ exitCode s' = Some code /\
      main s' = main s /\ stderrC s' = stderrC s /\ trace s' = trace s
  | TailDone input =>
      exitCode s' = exitCode s /\ main s' = main s /\ trace s' = trace s /\
      stderrC s' = Some (LogTailer.Tail (LogTailer.NewLogTailer 3) input)
  | _ =>
      exitCode s' = exitCode s /\ main s' = main s /\ stderrC s' = stderrC s /\
      exists new, trace s' = trace s ++ new /\
                  forallb (fun ev => negb (is_exit_report ev)) new = true
  end.
Proof.
  intros H. destruct a; step_cases H; repeat split; eauto;
    try (eexists; split; [symmetry; apply app_nil_r | reflexivity]);
    try (eexists; split; [reflexivity | reflexivity]).
  - exists z. rewrite H3. auto.
  - exists z. rewrite H3. auto.
  - exists code, l. auto 10.
Qed.

Lemma exit_reports_app tr new :
  forallb (fun ev => negb (is_exit_report ev)) new = true ->
  exit_reports (tr ++ new) = exit_reports tr.
Proof.
  intros H. unfold exit_reports. rewrite List.filter_app.
  replace (List.filter is_exit_report new) with (@nil event);
    [apply app_nil_r|].
  induction new as [|ev new IH]; [reflexivity|].
  simpl in *. apply andb_true_iff in H as [H1 H2].
  destruct (is_exit_report ev); [discriminate | auto].
Qed.

Lemma exit_inv_step acts s a s' :
  exit_inv acts s -> step s a = Some s' -> exit_inv (acts ++ [a]) s'.
Proof.
  intros (Htail & Hnone & Hrecv & Hret) H.
  assert (Hacts : forall input, In (TailDone input) acts ->
                                In (TailDone input) (acts ++ [a]))
    by (intros; apply in_app_iff; now left).
  assert (Hret' : main s = MainReturned ->
    exists c, exitCode s = Some c /\
     (c = (-1)%Z ->
      exit_reports (trace s) = [] /\ In (Log Warn "Player terminated") (trace s)) /\
     (c <> (-1)%Z ->
      exists input, In (TailDone input) (acts ++ [a]) /\
        exit_reports (trace s) =
          [LogExit c (LogTailer.lines
                        (LogTailer.Tail (LogTailer.NewLogTailer 3) input))])).
  { intros Hm. destruct (Hret Hm) as (c & Hc & H1 & H2). exists c.
    repeat split; try tauto. intros Hne.
    destruct (H2 Hne) as (input & Hin & Heq). eauto. }
  assert (Htail' : forall t, stderrC s = Some t ->
             exists input, In (TailDone input) (acts ++ [a]) /\
                           t = LogTailer.Tail (LogTailer.NewLogTailer 3) input).
  { intros t Ht. destruct (Htail t Ht) as (input & Hin & ->). eauto. }
  clear Hret Htail.
  pose proof (step_frame _ _ _ H) as F.
  assert (Hdefault :
    (exitCode s' = exitCode s /\ main s' = main s /\ stderrC s' = stderrC s /\
     exists new, trace s' = trace s ++ new /\
                 forallb (fun ev => negb (is_exit_report ev)) new = true) ->
    exit_inv (acts ++ [a]) s').
  { intros (Hc & Hm & Ht & new & Htr & Hnew).
    unfold exit_inv. rewrite Hc, Hm, Ht, Htr, (exit_reports_app _ _ Hnew).
    repeat split; try assumption; try (now apply Hrecv).
    intros Hret. destruct (Hret' Hret) as (c & Hcode & H1 & H2).
    exists c. repeat split; try tauto.
    apply in_app_iff. left. tauto. }
  destruct a; try (apply Hdefault; exact F).
  - (* ProcExit *)
    destruct F as (Hc & Hc' & Hm & Ht & Htr).
    unfold exit_inv. rewrite Hm, Ht, Htr. repeat split; try assumption.
    all: try match goal with
             | Hmc : main _ = MainRecvTail _ |- _ =>
                 destruct (Hrecv _ Hmc); congruence
             end.
    intros Hret. destruct (Hret' Hret) as (c & Hcode & _). congruence.
  - (* TailDone *)
    destruct F as (Hc & Hm & Htr & Ht).
    unfold exit_inv. rewrite Hc, Hm, Ht, Htr. repeat split; try assumption;
      try (now apply Hrecv).
    intros t [= <-]. exists input. split; [|reflexivity].
    apply in_app_iff. right. now left.
  - (* SelExited *)
    destruct F as (Hm & Ht & c & Hc & Hc' & F).
    assert (Hn : exit_reports (trace s) = []) by (apply Hnone; congruence).
    unfold exit_inv. rewrite Ht, Hc'.
    destruct (Z.eqb_spec c (-1)) as [->|Hne]; destruct F as [Hm' Htr];
      rewrite Hm', Htr.
    + repeat split; try assumption; try congruence.
      intros _. exists (-1)%Z. repeat split; try congruence.
      * rewrite exit_reports_app by reflexivity. assumption.
      * apply in_app_iff. right. now left.
    + repeat split; try assumption; try congruence.
  - (* RecvTail *)
    destruct F as (c & t & Hm & Ht & Hm' & Ht' & Hc & Htr).
    assert (Hn : exit_reports (trace s) = []) by (apply Hnone; congruence).
    destruct (Hrecv c Hm) as [Hcode Hne].
    unfold exit_inv. rewrite Hm', Ht', Hc, Htr.
    repeat split; try congruence.
    intros _. exists c. repeat split; try assumption; try congruence.
    intros _. destruct (Htail' t Ht) as (input & Hin & ->).
    exists input. split; [assumption|].
    unfold exit_reports in *. rewrite List.filter_app, Hn. reflexivity.
Qed.

Lemma exit_inv_init uid : exit_inv [] (init uid).
Proof.
  unfold exit_inv. simpl. repeat split; try congruence; discriminate.
Qed.

Lemma exit_inv_run uid acts s :
  run (init uid) acts = Some s -> exit_inv acts s.
Proof.
  apply (run_invariant exit_inv).
  - apply exit_inv_init.
  - intros. eapply exit_inv_step; eassumption.
Qed.



(** The select loop is never stuck on a process that has exited. *)
Lemma exitedC_has_code uid acts s :
  run (init uid) acts = Some s -> exitedC s = true -> exists c, exitCode s = Some c.
Proof.
  apply (run_invariant (fun _ s => exitedC s = true -> exists c, exitCode s = Some c)).
  - discriminate.
  - intros acts' s1 a s2 _ IH H.
    destruct a; step_cases H; eauto; try discriminate.
Qed.

Lemma step_SelExited_enabled s c :
  main s = MainSelect -> exitedC s = true -> exitCode s = Some c ->
  exists s',
    step s SelExited = Some s' /\ exitingFlag s' = true /\
    if (c =? -1)%Z then
      main s' = MainReturned /\ trace s' = trace s ++ [Log Warn "Player terminated"]
    else main s' = MainRecvTail c /\ trace s' = trace s.
Proof.
  intros Hm He Hc. simpl. unfold step_SelExited. rewrite Hm, He, Hc.
  destruct (c =? -1)%Z; eexists; repeat split.
Qed.

Lemma step_RecvTail_enabled s c t :
  main s = MainRecvTail c -> stderrC s = Some t ->
  exists s',
    step s RecvTail = Some s' /\ main s' = MainReturned /\
    trace s' = trace s ++ [LogExit c (LogTailer.lines t)].
Proof.
  intros Hm Ht. simpl. unfold step_RecvTail. rewrite Hm, Ht.
  eexists; repeat split.
Qed.


(** *** The latch *)



(** The report of a read made before the latch was set does come after
    it: here the decoder read the latch unset, the select loop then
    handled the cancellation, and the error is logged and sent all the
    same. *)
Example report_in_flight :
  option_map (fun s => (exitingFlag s, decoderC s, trace s))
             (run (init "baby")
                  [DecHeader DecodeOk; DecTag (DecodeErr "bad tag"); Cancel;
                   SelCtxDone; DecReport])
  = Some (true, Some (DecodeErr "bad tag"),
          [Log Info "Player started";
           Log Debug "Successfully decoded stream header";
           Log Info "Stream is alive"; UpdateStreamAlive "baby";
           Log Debug "Cancel request received, killing the process"; Kill;
           LogErr Warn (DecodeErr "bad tag") "Failed to decode FLV tag"]).
Proof. reflexivity. Qed.


Lemma step_monotone s a s' :
  step s a = Some s' ->
  (exitingFlag s = true -> exitingFlag s' = true) /\
  (forall ev, In ev (trace s) -> In ev (trace s')).
Proof.
  intros H. destruct a; step_cases H; split; auto; try congruence;
    intros ev Hin; apply in_app_iff; now left.
Qed.

Lemma cancel_inv_step acts s a s' :
  cancel_inv acts s -> step s a = Some s' -> cancel_inv (acts ++ [a]) s'.
Proof.
  intros [Hsel Hdone] H.
  destruct (step_monotone _ _ _ H) as [Hflag Htrace].
  split.
  - destruct a; step_cases H; auto; try congruence;
      intros; apply in_app_iff; try (left; now auto); right; simpl; auto.
  - intros Hin. apply in_app_iff in Hin as [Hin|[->|[]]].
    + destruct (Hdone Hin). auto.
    + step_cases H; auto. split; [|reflexivity].
      apply in_app_iff. right. simpl. auto.
Qed.

Lemma cancel_inv_run uid acts s :
  run (init uid) acts = Some s -> cancel_inv acts s.
Proof.
  apply (run_invariant cancel_inv).
  - split; simpl; [discriminate | tauto].
  - intros. eapply cancel_inv_step; eassumption.
Qed.

(** A step leaves the context as it is; the cancellation is not a step of
    the probe. *)
Lemma step_ctxDone s a s' :
  step s a = Some s' ->
  ctxDone s' = match a with Cancel => true | _ => ctxDone s end.
Proof.
  intros H. destruct a; step_cases H; first [reflexivity | congruence].
Qed.

(** How a cancelled probe ends: the select loop takes the cancellation,
    the process has then been sent the kill, and once the killed process
    has exited the select loop takes the exit and returns. *)
Lemma cancel_path uid acts s :
  run (init uid) acts = Some s ->
  main s = MainSelect -> ctxDone s = true -> exitCode s = None ->
  exists s1 s2 s3,
    step s SelCtxDone = Some s1 /\
    step s1 (ProcExit (-1)) = Some s2 /\
    step s2 SelExited = Some s3 /\
    In Kill (trace s1) /\
    main s3 = MainReturned.
Proof.
  intros Hrun Hm Hc He.
  destruct (cancel_inv_run _ _ _ Hrun) as [Hkill _].
  simpl. unfold step_SelCtxDone. rewrite Hm, Hc.
  destruct (exitingFlag s) eqn:Ef.
  - eexists _, _, _. split; [reflexivity|].
    unfold step_ProcExit. rewrite He. split; [reflexivity|].
    unfold step_SelExited. simpl. rewrite Hm. simpl.
    split; [reflexivity|]. split; [auto | reflexivity].
  - eexists _, _, _. split; [reflexivity|].
    unfold step_ProcExit. simpl. rewrite He. split; [reflexivity|].
    unfold step_SelExited. simpl. rewrite Hm. simpl.
    split; [reflexivity|]. split; [|reflexivity].
    apply in_app_iff. right. simpl. auto.
Qed.

End ProbeFacts.

(** ** The application *)

Module AppFacts.
Import Baby App.

Lemma GetBabyState_Update (m : gmap string State) uid delta :
  GetBabyState (Update m uid delta) uid = Merge (GetBabyState m uid) delta.
Proof. unfold GetBabyState at 1, Update. now rewrite lookup_insert_eq. Qed.

(** *** The watchdog *)

Section WatchDog.
Variable opts : Opts.
Variable babyUID : string.

Lemma runWatchDog_snoc s acts a :
  runWatchDog opts babyUID s (acts ++ [a]) =
    match runWatchDog opts babyUID s acts with
    | Some s' => wd_step opts babyUID s' a
    | None => None
    end.
Proof.
  revert s. induction acts as [|b acts IH]; intros s; simpl.
  - destruct (wd_step opts babyUID s a); reflexivity.
  - destruct (wd_step opts babyUID s b); [apply IH | reflexivity].
Qed.

Lemma last_end_app e tr new :
  last_end e (tr ++ new) = last_end (last_end e tr) new.
Proof.
  revert e. induction tr as [|ev tr IH]; intros e; simpl; [reflexivity|].
  destruct ev; apply IH.
Qed.

Lemma spaced_app gap e tr new :
  spaced gap e (tr ++ new) = spaced gap e tr && spaced gap (last_end e tr) new.
Proof.
  revert e. induction tr as [|ev tr IH]; intros e; simpl; [reflexivity|].
  destruct ev; rewrite ?IH; try reflexivity.
  now rewrite andb_assoc.
Qed.

Lemma demoted_app tr new :
  demoted babyUID tr = true -> demoted babyUID new = true ->
  demoted babyUID (tr ++ new) = true.
Proof.
  intros Htr Hnew. induction tr as [|ev tr IH]; simpl in *; [assumption|].
  destruct ev; auto.
  apply andb_true_iff in Htr as [Hhd Htl].
  rewrite (IH Htl), andb_true_r.
  destruct tr as [|[] tr]; try discriminate. exact Hhd.
Qed.

Lemma probes_app tr new : probes (tr ++ new) = probes tr ++ probes new.
Proof. apply List.filter_app. Qed.

Lemma Unhealthy_after_Update (m : gmap string State) :
  GetStreamState (GetBabyState (Update m babyUID unhealthy) babyUID)
    = StreamState_Unhealthy.
Proof. rewrite GetBabyState_Update. reflexivity. Qed.

(** The probe keeps the context it shares with the watchdog. *)
Lemma probe_cancel_spec p :
  Probe.ctxDone (probe_cancel p) = true /\
  forall uid pacts,
    Probe.run (Probe.init uid) pacts = Some p ->
    exists pacts', Probe.run (Probe.init uid) pacts' = Some (probe_cancel p).
Proof.
  unfold probe_cancel. simpl. unfold Probe.step_Cancel.
  destruct (Probe.ctxDone p) eqn:E; simpl.
  - split; [assumption|]. eauto.
  - split; [reflexivity|]. intros uid pacts Hrun. exists (pacts ++ [Probe.Cancel]).
    rewrite ProbeFacts.run_snoc, Hrun. simpl. unfold Probe.step_Cancel.
    now rewrite E.
Qed.

Lemma probe_begin_spec done :
  Probe.ctxDone (probe_begin babyUID done) = done /\
  exists pacts, Probe.run (Probe.init babyUID) pacts = Some (probe_begin babyUID done).
Proof.
  destruct done; simpl.
  - split; [reflexivity|]. now exists [Probe.Cancel].
  - split; [reflexivity|]. now exists [].
Qed.

Lemma wd_inv_init now m : wd_inv babyUID [] (wd_init now m).
Proof. repeat split. exists now. simpl. auto. Qed.

Lemma wd_inv_step acts s a s' :
  wd_inv babyUID acts s -> wd_step opts babyUID s a = Some s' ->
  wd_inv babyUID (acts ++ [a]) s'.
Proof.
  intros (Hsp & Hdem & Hcount & Hpc) H. unfold wd_step in H.
  destruct (wd_returned s) eqn:Er; [discriminate|].
  unfold wd_inv, in_probe in *.
  rewrite List.filter_app, length_app.
  destruct a.
  - (* WdTick *)
    destruct (Z.leb_spec 0 d); [|discriminate]. simplify_eq. simpl.
    repeat apply conj; try assumption; [lia|].
    destruct (wd_pc s); try assumption.
    + destruct Hpc as (Hle & Hwell & Hctx & Hreach). repeat split; try assumption. lia.
    + unfold not_after in *. destruct (last_end None (wd_trace s)); [lia | exact I].
    + unfold not_after in *. destruct (last_end None (wd_trace s)); [lia | exact I].
  - (* WdCancel *)
    simplify_eq. simpl.
    destruct (wd_pc s) as [|started p| | |]; simpl in *;
      (split; [assumption|]); (split; [assumption|]); (split; [lia|]);
      try assumption.
    destruct Hpc as (Hle & Hwell & _ & pacts & Hreach).
    destruct (probe_cancel_spec p) as [Hc Hr].
    repeat split; try assumption. eauto.
  - (* WdStore *)
    simplify_eq. simpl. repeat apply conj; try assumption. lia.
  - (* WdSelTimer *)
    destruct (wd_pc s); try discriminate.
    destruct Hpc as (at_ & Hat & Hwell). rewrite Hat in H.
    destruct (Z.leb_spec at_ (wd_now s)); [|discriminate].
    simplify_eq. simpl.
    destruct (probe_begin_spec (wd_ctxDone s)) as [Hc Hr].
    rewrite spaced_app, Hsp, probes_app, last_end_app. simpl.
    repeat apply conj; try assumption; try reflexivity.
    + apply demoted_app; [assumption | reflexivity].
    + rewrite app_nil_r. lia.
    + unfold well_after in *. destruct (last_end None (wd_trace s)); [lia | exact I].
  - (* WdProbe *)
    destruct (wd_pc s) as [|started p| | |] eqn:Epc;
      try (destruct a; discriminate).
    destruct Hpc as (Hle & Hwell & Hctx & pacts & Hreach).
    assert (Hstep : exists p', Probe.step p a = Some p' /\ a <> Probe.Cancel /\
                      s' = {| wd_now := wd_now s; wd_timer := wd_timer s;
                              wd_ctxDone := wd_ctxDone s;
                              wd_pc := WdProbing started p';
                              wd_store := probe_store a babyUID (wd_store s);
                              wd_trace := wd_trace s |}).
    { destruct a; try discriminate;
        match type of H with
        | match ?x with _ => _ end = _ =>
            destruct x as [p'|] eqn:E; [|discriminate]
        end; exists p'; simplify_eq; repeat split; discriminate. }
    destruct Hstep as (p' & Hp & Hne & ->). simpl.
    repeat apply conj; try assumption; try lia.
    + rewrite <- Hctx. pose proof (ProbeFacts.step_ctxDone _ _ _ Hp) as Hc.
      destruct a; try assumption. congruence.
    + exists (pacts ++ [a]). now rewrite ProbeFacts.run_snoc, Hreach.
  - (* WdProbeReturned *)
    destruct (wd_pc s) as [|started p| | |]; try discriminate.
    destruct (Probe.main p); try discriminate. simplify_eq. simpl.
    destruct Hpc as (Hle & Hwell & _).
    rewrite spaced_app, Hsp, probes_app, last_end_app. simpl.
    repeat apply conj.
    + unfold well_after in Hwell.
      destruct (last_end None (wd_trace s)) as [e|].
      * replace (e + 5 * Time.Second <=? started)%Z with true
          by (symmetry; apply Z.leb_le; lia).
        replace (started <=? wd_now s)%Z with true
          by (symmetry; apply Z.leb_le; lia).
        reflexivity.
      * replace (started <=? wd_now s)%Z with true
          by (symmetry; apply Z.leb_le; lia).
        reflexivity.
    + apply demoted_app; [assumption|]. simpl.
      rewrite String.eqb_refl. reflexivity.
    + rewrite length_app. simpl. lia.
    + lia.
  - (* WdCheck *)
    destruct (wd_pc s); try discriminate. simplify_eq. simpl.
    rewrite spaced_app, Hsp, probes_app, last_end_app.
    destruct (StreamRequestState_eqb _ _); simpl;
      repeat apply conj; try assumption; try reflexivity;
      try (rewrite app_nil_r; lia);
      apply demoted_app; (assumption || reflexivity).
  - (* WdReset *)
    destruct (wd_pc s); try discriminate. simplify_eq. simpl.
    repeat apply conj; try assumption; [lia|].
    eexists. split; [reflexivity|].
    unfold well_after, not_after in *.
    destruct (last_end None (wd_trace s)); [lia | exact I].
  - (* WdSelCtxDone *)
    destruct (wd_pc s); try discriminate.
    destruct (wd_ctxDone s); [|discriminate]. simplify_eq. simpl.
    rewrite spaced_app, Hsp, probes_app. simpl.
    repeat apply conj; try reflexivity.
    + apply demoted_app; [assumption | reflexivity].
    + rewrite app_nil_r. lia.
Qed.

Lemma wd_inv_run now m acts s :
  runWatchDog opts babyUID (wd_init now m) acts = Some s -> wd_inv babyUID acts s.
Proof.
  revert s. induction acts as [|a acts IH] using rev_ind; intros s Hrun.
  - simpl in Hrun. simplify_eq. apply wd_inv_init.
  - rewrite runWatchDog_snoc in Hrun.
    destruct (runWatchDog opts babyUID (wd_init now m) acts) as [s1|];
      [|discriminate].
    eapply wd_inv_step; eauto.
Qed.

(** The select of the loop: with the timer pending the timer case cannot
    be taken; once it has run out the case logs and begins the probe, with
    the context as it is. *)
Lemma wd_step_SelTimer s at_ :
  wd_pc s = WdSelect -> wd_timer s = Some at_ ->
  ((wd_now s < at_)%Z -> wd_step opts babyUID s WdSelTimer = None) /\
  ((at_ <= wd_now s)%Z ->
   exists s',
     wd_step opts babyUID s WdSelTimer = Some s' /\
     wd_pc s' = WdProbing (wd_now s) (probe_begin babyUID (wd_ctxDone s)) /\
     wd_store s' = wd_store s /\
     wd_trace s' = wd_trace s
                     ++ [WdLog Probe.Debug "Starting local stream watch dog"]).
Proof.
  intros Hpc Ht. unfold wd_step, wd_returned. rewrite Hpc, Ht. split; intros Hlt.
  - destruct (Z.leb_spec at_ (wd_now s)); [lia | reflexivity].
  - destruct (Z.leb_spec at_ (wd_now s)); [|lia]. eexists. repeat split.
Qed.

(** With the context cancelled the select takes the cancellation, and the
    loop returns for good. *)
Lemma wd_step_cancelled s :
  wd_pc s = WdSelect -> wd_ctxDone s = true ->
  exists s',
    wd_step opts babyUID s WdSelCtxDone = Some s' /\
    wd_pc s' = WdReturned /\
    wd_store s' = wd_store s /\
    wd_trace s' = wd_trace s ++ [WdLog Probe.Debug "Terminating watchdog"] /\
    forall a, wd_step opts babyUID s' a = None.
Proof.
  intros Hpc Hc. unfold wd_step at 1, wd_returned. rewrite Hpc, Hc.
  eexists. repeat split.
Qed.

(** When player.Run returns, whatever the probe did, the loop marks the
    device Unhealthy and records the call. *)
Lemma wd_step_ProbeReturned s started p :
  wd_pc s = WdProbing started p -> Probe.main p = Probe.MainReturned ->
  exists s',
    wd_step opts babyUID s WdProbeReturned = Some s' /\
    wd_pc s' = WdChecking /\
    wd_now s' = wd_now s /\ wd_ctxDone s' = wd_ctxDone s /\
    wd_store s' = Update (wd_store s) babyUID unhealthy /\
    wd_trace s' = wd_trace s
                    ++ [WdRun babyUID (getLocalStreamURL opts babyUID)
                              started (wd_now s);
                        WdUpdate babyUID unhealthy].
Proof.
  intros Hpc Hm. unfold wd_step, wd_returned. rewrite Hpc, Hm.
  eexists. repeat split.
Qed.

Lemma wd_step_Check s :
  wd_pc s = WdChecking ->
  exists s',
    wd_step opts babyUID s WdCheck = Some s' /\
    wd_pc s' = WdResetting /\
    wd_now s' = wd_now s /\ wd_ctxDone s' = wd_ctxDone s /\
    wd_store s' = wd_store s /\
    exists logged, wd_trace s' = wd_trace s ++ logged /\ probes logged = [].
Proof.
  intros Hpc. unfold wd_step, wd_returned. rewrite Hpc.
  eexists. repeat split. simpl.
  eexists. split; [reflexivity|]. destruct (StreamRequestState_eqb _ _); reflexivity.
Qed.

Lemma wd_step_Reset s :
  wd_pc s = WdResetting ->
  exists s',
    wd_step opts babyUID s WdReset = Some s' /\
    wd_pc s' = WdSelect /\
    wd_now s' = wd_now s /\ wd_ctxDone s' = wd_ctxDone s /\
    wd_store s' = wd_store s /\ wd_trace s' = wd_trace s /\
    wd_timer s' = Some (wd_now s + 5 * Time.Second)%Z.
Proof.
  intros Hpc. unfold wd_step, wd_returned. rewrite Hpc.
  eexists. repeat split.
Qed.

(** While the probe runs the loop is inside player.Run: it takes no case
    of its select, and goes on only when the probe has returned. *)
Lemma wd_step_probing s started p :
  wd_pc s = WdProbing started p ->
  wd_step opts babyUID s WdSelTimer = None /\
  wd_step opts babyUID s WdSelCtxDone = None /\
  (Probe.main p <> Probe.MainReturned ->
   wd_step opts babyUID s WdProbeReturned = None).
Proof.
  intros Hpc. unfold wd_step, wd_returned. rewrite Hpc.
  repeat split. intros Hm. destruct (Probe.main p); congruence.
Qed.

Lemma wd_step_Probe s started p a p' :
  wd_pc s = WdProbing started p ->
  a <> Probe.Cancel -> Probe.is_header_ok a = false ->
  Probe.step p a = Some p' ->
  exists s',
    wd_step opts babyUID s (WdProbe a) = Some s' /\
    wd_pc s' = WdProbing started p' /\
    wd_now s' = wd_now s /\ wd_ctxDone s' = wd_ctxDone s /\
    wd_store s' = wd_store s /\ wd_trace s' = wd_trace s.
Proof.
  intros Hpc Hne Hok Hp. unfold wd_step, wd_returned. rewrite Hpc.
  destruct a; try congruence; rewrite Hp; eexists; repeat split;
    simpl; unfold probe_store; rewrite ?Hok; reflexivity.
Qed.

(** A probe in progress whose context is cancelled: its select loop takes
    the cancellation and the process is killed; the killed process
    exits, the probe returns, and the loop, after its update and with its
    timer set anew, takes the cancellation and returns. *)
Lemma wd_cancel_path acts s started p :
  wd_inv babyUID acts s ->
  wd_pc s = WdProbing started p -> wd_ctxDone s = true ->
  Probe.ctxDone p = true /\
  (Probe.main p = Probe.MainSelect -> Probe.exitCode p = None ->
   exists p1 s',
     Probe.step p Probe.SelCtxDone = Some p1 /\
     In Probe.Kill (Probe.trace p1) /\
     runWatchDog opts babyUID s
       [WdProbe Probe.SelCtxDone; WdProbe (Probe.ProcExit (-1));
        WdProbe Probe.SelExited; WdProbeReturned; WdCheck; WdReset;
        WdSelCtxDone] = Some s' /\
     wd_pc s' = WdReturned /\
     wd_now s' = wd_now s /\
     probes (wd_trace s') =
       probes (wd_trace s)
         ++ [WdRun babyUID (getLocalStreamURL opts babyUID) started (wd_now s)] /\
     GetStreamState (GetBabyState (wd_store s') babyUID) = StreamState_Unhealthy).
Proof.
  intros Hinv Hpc Hdone.
  assert (Hp : Probe.ctxDone p = true /\
               exists pacts, Probe.run (Probe.init babyUID) pacts = Some p).
  { destruct Hinv as (_ & _ & _ & Hi). rewrite Hpc in Hi.
    destruct Hi as (_ & _ & Hc & Hr). split; [congruence | exact Hr]. }
  destruct Hp as [Hc [pacts Hreach]]. split; [exact Hc|].
  intros Hm He.
  destruct (ProbeFacts.cancel_path _ _ _ Hreach Hm Hc He)
    as (p1 & p2 & p3 & H1 & H2 & H3 & Hkill & Hret).
  destruct (wd_step_Probe s started p Probe.SelCtxDone p1 Hpc ltac:(discriminate) eq_refl H1)
    as (s1 & E1 & Hpc1 & Hn1 & Hd1 & Hs1 & Ht1).
  destruct (wd_step_Probe s1 started p1 (Probe.ProcExit (-1)) p2 Hpc1 ltac:(discriminate) eq_refl H2)
    as (s2 & E2 & Hpc2 & Hn2 & Hd2 & Hs2 & Ht2).
  destruct (wd_step_Probe s2 started p2 Probe.SelExited p3 Hpc2 ltac:(discriminate) eq_refl H3)
    as (s3 & E3 & Hpc3 & Hn3 & Hd3 & Hs3 & Ht3).
  destruct (wd_step_ProbeReturned s3 started p3 Hpc3 Hret)
    as (s4 & E4 & Hpc4 & Hn4 & Hd4 & Hs4 & Ht4).
  destruct (wd_step_Check s4 Hpc4)
    as (s5 & E5 & Hpc5 & Hn5 & Hd5 & Hs5 & logged & Ht5 & Hlogged).
  destruct (wd_step_Reset s5 Hpc5)
    as (s6 & E6 & Hpc6 & Hn6 & Hd6 & Hs6 & Ht6 & _).
  destruct (wd_step_cancelled s6 Hpc6 ltac:(congruence))
    as (s7 & E7 & Hpc7 & Hs7 & Ht7 & _).
  exists p1, s7. split; [exact H1|]. split; [exact Hkill|].
  split; [simpl; rewrite E1, E2, E3, E4, E5, E6, E7; reflexivity|].
  split; [exact Hpc7|].
  assert (Hn7 : wd_now s7 = wd_now s6).
  { unfold wd_step, wd_returned in E7. rewrite Hpc6 in E7.
    destruct (wd_ctxDone s6); [|discriminate]. now simplify_eq. }
  split; [congruence|]. split.
  - rewrite Ht7, Ht6, Ht5, Ht4, Ht3, Ht2, Ht1, !probes_app, Hlogged.
    simpl. rewrite Hn3, Hn2, Hn1, ?app_nil_r. reflexivity.
  - rewrite Hs7, Hs6, Hs5, Hs4, Hs3, Hs2, Hs1. apply Unhealthy_after_Update.
Qed.

End WatchDog.

(** *** The supervisor *)

Lemma rapid_failures (o : Utils.PerseverenceOpts) (ordinal : nat) (runs : list Z) :
  Forall (fun d => (d < Utils.ResetThreshold o)%Z) runs ->
  Utils.RunWithPerseverance o ordinal runs =
    map (fun i => (ordinal + i, Some (Utils.cooldown_for o (ordinal + i))))
        (seq 0 (length runs)).
Proof.
  intros Hall. revert ordinal.
  induction Hall as [|d runs Hd Hall IH]; intros ordinal; simpl; [reflexivity|].
  unfold Utils.wait_after, Utils.next_ordinal.
  replace (d <? Utils.ResetThreshold o)%Z with true
    by (symmetry; apply Z.ltb_lt; lia).
  replace (Utils.ResetThreshold o <=? d)%Z with false
    by (symmetry; apply Z.leb_gt; lia).
  rewrite Nat.add_0_r, IH, <- seq_shift, map_map. f_equal.
  apply map_ext. intros i. now rewrite Nat.add_succ_r.
Qed.

End AppFacts.

(* ===================================================================== *)
(** * The specification, statement by statement *)
(* ===================================================================== *)

Import Player.

(** ** Log classifier *)

(** C1, as amended. A line is classified SilenceStart exactly when it is
    the tool tag followed by [silence_start:], one blank and a decimal, and
    nothing more; it is classified SilenceEnd exactly when it is the tool
    tag followed by [silence_end:], one blank and a decimal, whatever text
    comes after the decimal (a duration clause or anything else); every
    other line, among them lines with the tag only and lines without the
    tag, is classified Unknown. *)
Theorem parseSilenceDetectLog_classification (line : list ascii) :
  (parseSilenceDetectLog line = ffmpegSilenceDetectEvent_start <-> start_line line) /\
  (parseSilenceDetectLog line = ffmpegSilenceDetectEvent_end <-> end_line line) /\
  (parseSilenceDetectLog line = ffmpegSilenceDetectEvent_unknown <->
   ~ start_line line /\ ~ end_line line).
Proof.
  pose proof (PlayerFacts.classify_start_iff line) as Hs.
  pose proof (PlayerFacts.classify_end_iff line) as He.
  repeat split; try (apply Hs); try (apply He).
  - intros Hl. apply Hs in Hl. congruence.
  - intros Hl. apply He in Hl. congruence.
  - intros [Hns Hne].
    destruct (parseSilenceDetectLog line); [reflexivity | |].
    + exfalso. apply Hns, Hs. reflexivity.
    + exfalso. apply Hne, He. reflexivity.
Qed.

(** C1 as stated fails: this line is neither the tag followed by
    [silence_start: <n>] nor the tag followed by [silence_end: <n>] with or
    without a duration clause, and yet it is not classified Unknown. *)
Lemma parseSilenceDetectLog_trailing_text :
  let line := bytes "[silencedetect @ 0x7fc1f3625880] silence_end: 2.21243 sec" in
  ~ start_line line /\ ~ end_line_strict line /\
  parseSilenceDetectLog line = ffmpegSilenceDetectEvent_end.
Proof.
  intros line.
  assert (Hend : parseSilenceDetectLog line = ffmpegSilenceDetectEvent_end)
    by (vm_compute; reflexivity).
  split; [|split; [|exact Hend]].
  - intros Hs. apply PlayerFacts.classify_start_iff in Hs. congruence.
  - intros (p & c & n & d & Heq & Hp & Hc & Hn & Hd).
    assert (Htag : tool_tag (bytes "[silencedetect @ 0x7fc1f3625880] ")).
    { exists " "%char, " "%char, (bytes "7fc1f3625880"), (bytes " ").
      repeat split; discriminate. }
    change line with (bytes "[silencedetect @ 0x7fc1f3625880] "
                        ++ bytes "silence_end: 2.21243 sec") in Heq.
    apply PlayerFacts.tool_tag_unique in Heq as [<- Heq];
      [|assumption|assumption|reflexivity|reflexivity].
    cbn in Heq. injection Heq as <- Heq.
    pose proof (PlayerFacts.decimal_length _ Hn) as Hlen.
    destruct Hd as [-> | (n' & Hn' & [-> | ->])].
    + rewrite app_nil_r in Heq. subst n.
      apply PlayerFacts.decimal_match in Hn. vm_compute in Hn. discriminate.
    + apply (f_equal (@length ascii)) in Heq.
      rewrite !length_app in Heq. simpl in Heq. lia.
    + apply (f_equal (@length ascii)) in Heq.
      rewrite !length_app in Heq. simpl in Heq. lia.
Qed.

(** ** Stream liveness probe *)

Import Probe.

(** [probe_run s0 acts s H] evaluates the schedule [acts] from [s0], names
    the state it reaches [s] and records [H : Probe.run s0 acts = Some s]. *)
Ltac probe_run s0 acts s H :=
  let r := eval vm_compute in (Probe.run s0 acts) in
  lazymatch r with
  | Some ?s' =>
      pose (s := s');
      assert (H : Probe.run s0 acts = Some s) by (vm_compute; reflexivity)
  end.

(** C2. Along every schedule of the probe the state store receives the
    update liveness = Alive of the device once if the header of the stream
    was decoded, however many tags are decoded afterwards, and never if it
    was not. *)
Theorem alive_reported_once (uid : string) (acts : list action) (s : state) :
  Probe.run (init uid) acts = Some s ->
  alive_updates (trace s) =
    if existsb is_header_ok acts then [UpdateStreamAlive uid] else [].
Proof.
  intros Hrun. apply ProbeFacts.run_alive_updates in Hrun. exact Hrun.
Qed.

Lemma alive_reported_once_witness :
  exists s,
    Probe.run (init "baby")
      [DecHeader DecodeOk; DecTag DecodeOk; DecTag DecodeOk; DecTag DecodeOk;
       Cancel; SelCtxDone; DecTag DecodeEOF] = Some s /\
    alive_updates (trace s) = [UpdateStreamAlive "baby"].
Proof.
  probe_run (init "baby")
    [DecHeader DecodeOk; DecTag DecodeOk; DecTag DecodeOk; DecTag DecodeOk;
     Cancel; SelCtxDone; DecTag DecodeEOF] s Hrun.
  exists s. split; [exact Hrun|].
  exact (alive_reported_once "baby" _ s Hrun).
Defined.

(** C3. Once the process has exited the select loop can take the exit:
    with the killed code -1 it logs "Player terminated" and returns; with
    any other code, 0 among them, it waits for the tail of standard error
    and then logs the failure "Player exited" and returns. Accordingly,
    when the probe has returned: with code -1 it reported no failure, and
    with every other code it reported the failure once, with that code and
    the last lines of standard error, at most three. *)
Theorem exit_classification (uid : string) (acts : list action) (s : state) :
  Probe.run (init uid) acts = Some s ->
  (main s = MainSelect -> exitedC s = true ->
   exists code s',
     exitCode s = Some code /\
     step s SelExited = Some s' /\ exitingFlag s' = true /\
     if (code =? -1)%Z then
       main s' = MainReturned /\ trace s' = trace s ++ [Log Warn "Player terminated"]
     else main s' = MainRecvTail code /\ trace s' = trace s) /\
  (forall code t,
     main s = MainRecvTail code -> stderrC s = Some t ->
     exists s',
       step s RecvTail = Some s' /\ main s' = MainReturned /\
       trace s' = trace s ++ [LogExit code (LogTailer.lines t)]) /\
  (main s = MainReturned ->
   exists code,
     exitCode s = Some code /\
     (code = (-1)%Z ->
      exit_reports (trace s) = [] /\ In (Log Warn "Player terminated") (trace s)) /\
     (code <> (-1)%Z ->
      exists input tail,
        In (TailDone input) acts /\
        tail = LogTailer.lines (LogTailer.Tail (LogTailer.NewLogTailer 3) input) /\
        length tail <= 3 /\
        exit_reports (trace s) = [LogExit code tail])).
Proof.
  intros Hrun. repeat apply conj.
  - intros Hm He.
    destruct (ProbeFacts.exitedC_has_code _ _ _ Hrun He) as [c Hc].
    destruct (ProbeFacts.step_SelExited_enabled _ _ Hm He Hc) as (s' & H).
    exists c, s'. tauto.
  - intros code t. apply ProbeFacts.step_RecvTail_enabled.
  - intros Hret.
    destruct (ProbeFacts.exit_inv_run _ _ _ Hrun) as (_ & _ & _ & Hinv).
    destruct (Hinv Hret) as (c & Hc & Hkilled & Hother).
    exists c. repeat split; try tauto.
    intros Hne. destruct (Hother Hne) as (input & Hin & Hrep).
    exists input, (LogTailer.lines (LogTailer.Tail (LogTailer.NewLogTailer 3) input)).
    repeat split; try assumption. apply ProbeFacts.Tail_bounded.
Qed.

Lemma exit_classification_witness :
  exists s tail,
    Probe.run (init "baby")
      [DecHeader DecodeOk; ProcExit 0; TailDone ["a"; "b"; "c"; "d"]%string;
       SelExited; RecvTail] = Some s /\
    length tail <= 3 /\
    exit_reports (trace s) = [LogExit 0 tail].
Proof.
  probe_run (init "baby")
    [DecHeader DecodeOk; ProcExit 0; TailDone ["a"; "b"; "c"; "d"]%string;
     SelExited; RecvTail] s Hrun.
  destruct (exit_classification "baby" _ s Hrun) as (_ & _ & Hret).
  destruct (Hret eq_refl) as (code & Hcode & _ & Hother).
  injection Hcode as <-.
  destruct (Hother ltac:(discriminate)) as (input & tail & _ & _ & Hlen & Hrep).
  exists s, tail. split; [exact Hrun|]. split; [exact Hlen | exact Hrep].
Defined.

(** C4, on the code. After the header was decoded, ends of stream met by
    the decoding loop while the latch is not set (each a read that returns
    io.EOF, then the report of it) are only logged: nothing is sent to the
    select loop, which cannot take its decoder-failure case, and the
    process is not killed. *)
Theorem eof_in_loop_not_killed (uid : string) (n : nat) :
  exists s,
    Probe.run (init uid)
      (DecHeader DecodeOk :: concat (repeat [DecTag DecodeEOF; DecReport] n))
      = Some s /\
    exitingFlag s = false /\
    decoder s = DecLoop /\
    decoderC s = None /\
    step s SelDecoder = None /\
    existsb is_kill (trace s) = false /\
    List.filter is_decoder_report (trace s) = repeat (Log Warn "Closed pipe") n.
Proof.
  eexists. split.
  - simpl. apply ProbeFacts.run_eof_in_loop; reflexivity.
  - simpl. repeat split.
    + induction n as [|n IH]; [reflexivity | exact IH].
    + induction n as [|n IH]; [reflexivity | simpl; now f_equal].
Qed.




(** ** Watchdog loop *)

Import Baby App.

(** C6. Along every schedule of the watchdog:
    - every probe that ended is followed at once by the update liveness =
      Unhealthy of the device, and started at least five seconds after the
      probe before it returned; every take of the timer case began a
      probe, and all of them but the one in progress have ended;
    - the select starts a probe when the timer has run out, not before;
    - when the probe returns, however it ended, the loop updates the
      liveness stored for the device to Unhealthy, then sets the timer to
      five seconds from then, the same delay at every turn;
    - a pending wait is stopped by the cancellation: the select takes it,
      the loop returns and takes no further step;
    - a probe in progress is stopped by the cancellation: the probe has
      the context of the watchdog, so its select loop takes the
      cancellation and kills the process; once the killed process has
      exited the probe returns, the loop makes its update and then takes
      the cancellation itself, with no further probe. While the probe is
      in progress the loop takes no select case of its own, and it goes
      on only when the probe has returned. *)
Theorem runWatchDog_fixed_delay
    (opts : Opts) (babyUID : string) (now : Z) (m : gmap string State)
    (acts : list wd_action) (s : wd_state) :
  runWatchDog opts babyUID (wd_init now m) acts = Some s ->
  (demoted babyUID (wd_trace s) = true /\
   spaced (5 * Time.Second) None (wd_trace s) = true /\
   length (List.filter is_WdSelTimer acts)
     = length (probes (wd_trace s)) + (if in_probe s then 1 else 0)) /\
  (wd_pc s = WdSelect ->
   exists at_,
     wd_timer s = Some at_ /\
     ((wd_now s < at_)%Z -> wd_step opts babyUID s WdSelTimer = None) /\
     ((at_ <= wd_now s)%Z ->
      exists s',
        wd_step opts babyUID s WdSelTimer = Some s' /\
        wd_pc s' = WdProbing (wd_now s) (probe_begin babyUID (wd_ctxDone s)) /\
        wd_store s' = wd_store s /\
        wd_trace s' = wd_trace s
                        ++ [WdLog Probe.Debug "Starting local stream watch dog"])) /\
  (forall started p,
     wd_pc s = WdProbing started p -> Probe.main p = MainReturned ->
     exists s',
       wd_step opts babyUID s WdProbeReturned = Some s' /\
       wd_pc s' = WdChecking /\
       wd_store s' = Update (wd_store s) babyUID unhealthy /\
       GetStreamState (GetBabyState (wd_store s') babyUID) = StreamState_Unhealthy /\
       wd_trace s' = wd_trace s
                       ++ [WdRun babyUID (getLocalStreamURL opts babyUID)
                                 started (wd_now s);
                           WdUpdate babyUID unhealthy]) /\
  (wd_pc s = WdChecking ->
   exists s',
     wd_step opts babyUID s WdCheck = Some s' /\
     wd_pc s' = WdResetting /\ wd_store s' = wd_store s /\
     exists logged, wd_trace s' = wd_trace s ++ logged /\ probes logged = []) /\
  (wd_pc s = WdResetting ->
   exists s',
     wd_step opts babyUID s WdReset = Some s' /\
     wd_pc s' = WdSelect /\ wd_store s' = wd_store s /\
     wd_trace s' = wd_trace s /\
     wd_timer s' = Some (wd_now s + 5 * Time.Second)%Z) /\
  (wd_pc s = WdSelect -> wd_ctxDone s = true ->
   exists s',
     wd_step opts babyUID s WdSelCtxDone = Some s' /\
     wd_pc s' = WdReturned /\
     wd_trace s' = wd_trace s ++ [WdLog Probe.Debug "Terminating watchdog"] /\
     forall a, wd_step opts babyUID s' a = None) /\
  (forall started p,
     wd_pc s = WdProbing started p ->
     wd_step opts babyUID s WdSelTimer = None /\
     wd_step opts babyUID s WdSelCtxDone = None /\
     (main p <> MainReturned ->
      wd_step opts babyUID s WdProbeReturned = None) /\
     (wd_ctxDone s = true ->
      ctxDone p = true /\
      (main p = MainSelect -> exitCode p = None ->
       exists p1 s',
         Probe.step p SelCtxDone = Some p1 /\
         In Kill (trace p1) /\
         runWatchDog opts babyUID s
           [WdProbe SelCtxDone; WdProbe (ProcExit (-1)); WdProbe SelExited;
            WdProbeReturned; WdCheck; WdReset; WdSelCtxDone] = Some s' /\
         wd_pc s' = WdReturned /\
         wd_now s' = wd_now s /\
         probes (wd_trace s') =
           probes (wd_trace s)
             ++ [WdRun babyUID (getLocalStreamURL opts babyUID)
                       started (wd_now s)] /\
         GetStreamState (GetBabyState (wd_store s') babyUID)
           = StreamState_Unhealthy))).
Proof.
  intros Hrun.
  pose proof (AppFacts.wd_inv_run _ _ _ _ _ _ Hrun) as Hinv.
  destruct Hinv as (Hsp & Hdem & Hcount & Hpc).
  repeat apply conj; try assumption.
  - intros Hsel. rewrite Hsel in Hpc. destruct Hpc as (at_ & Hat & _).
    exists at_. split; [assumption|].
    apply AppFacts.wd_step_SelTimer; assumption.
  - intros started p Hp Hm.
    destruct (AppFacts.wd_step_ProbeReturned opts babyUID s started p Hp Hm)
      as (s' & Hstep & Hpc' & _ & _ & Hst & Htr).
    exists s'. repeat split; try assumption.
    rewrite Hst. apply AppFacts.Unhealthy_after_Update.
  - intros Hp.
    destruct (AppFacts.wd_step_Check opts babyUID s Hp)
      as (s' & Hstep & Hpc' & _ & _ & Hst & Hlog).
    exists s'. auto.
  - intros Hp.
    destruct (AppFacts.wd_step_Reset opts babyUID s Hp)
      as (s' & Hstep & Hpc' & _ & _ & Hst & Htr & Ht).
    exists s'. auto.
  - intros Hp Hc.
    destruct (AppFacts.wd_step_cancelled opts babyUID s Hp Hc)
      as (s' & Hstep & Hpc' & _ & Htr & Hstuck).
    exists s'. auto.
  - intros started p Hp.
    destruct (AppFacts.wd_step_probing opts babyUID s started p Hp)
      as (H1 & H2 & H3).
    split; [exact H1|]. split; [exact H2|]. split; [exact H3|].
    apply (AppFacts.wd_cancel_path opts babyUID acts s started p);
      [|assumption].
    pose proof (AppFacts.wd_inv_run _ _ _ _ _ _ Hrun) as Hinv. exact Hinv.
Qed.

Lemma runWatchDog_fixed_delay_witness :
  let opts := {| RTMP := Some {| ListenAddr := ":1935"; PublicAddr := "10.0.0.2:1935" |} |} in
  let acts := [WdSelTimer; WdProbe (DecHeader DecodeOk);
               WdTick (3 * Time.Second);
               WdProbe (ProcExit 0); WdProbe (TailDone ["eof"%string]);
               WdProbe SelExited; WdProbe RecvTail;
               WdProbeReturned; WdCheck; WdReset;
               WdTick (5 * Time.Second);
               WdSelTimer; WdProbe (DecHeader DecodeOk);
               WdTick (60 * Time.Second); WdCancel] in
  exists s s',
    runWatchDog opts "baby" (wd_init 0 ∅) acts = Some s /\
    demoted "baby" (wd_trace s) = true /\
    spaced (5 * Time.Second) None (wd_trace s) = true /\
    probes (wd_trace s)
      = [WdRun "baby" "rtmp://10.0.0.2:1935/local/baby" 0 (3 * Time.Second)] /\
    runWatchDog opts "baby" s
      [WdProbe SelCtxDone; WdProbe (ProcExit (-1)); WdProbe SelExited;
       WdProbeReturned; WdCheck; WdReset; WdSelCtxDone] = Some s' /\
    wd_pc s' = WdReturned /\
    probes (wd_trace s')
      = [WdRun "baby" "rtmp://10.0.0.2:1935/local/baby" 0 (3 * Time.Second);
         WdRun "baby" "rtmp://10.0.0.2:1935/local/baby"
               (8 * Time.Second) (68 * Time.Second)].
Proof.
  intros opts acts.
  destruct (runWatchDog opts "baby" (wd_init 0 ∅) acts) as [s|] eqn:Hrun;
    [|vm_compute in Hrun; discriminate].
  destruct (runWatchDog_fixed_delay opts "baby" 0 ∅ acts s Hrun)
    as ((Hdem & Hsp & _) & _ & _ & _ & _ & _ & Hprobe).
  assert (Hs : exists p,
             wd_pc s = WdProbing (8 * Time.Second) p /\
             wd_ctxDone s = true /\ main p = MainSelect /\ exitCode p = None /\
             wd_now s = (68 * Time.Second)%Z /\
             probes (wd_trace s)
               = [WdRun "baby" "rtmp://10.0.0.2:1935/local/baby" 0
                        (3 * Time.Second)]).
  { vm_compute in Hrun. injection Hrun as <-. eexists. repeat split. }
  destruct Hs as (p & Hpc & Hc & Hm & He & Hn & Htr).
  destruct (Hprobe _ _ Hpc) as (_ & _ & _ & Hcancel).
  destruct (Hcancel Hc) as (_ & Hpath).
  destruct (Hpath Hm He) as (p1 & s' & _ & _ & Hrun' & Hret & _ & Htr' & _).
  exists s, s'. repeat split; try assumption.
  rewrite Htr', Htr, Hn. reflexivity.
Defined.

(** ** Stream request orchestrator *)

(** C7. The callback of the subscription starts one request, a start of
    the local streaming of the managed device, exactly when the update is
    for that device, carries liveness = Unhealthy, and the request state
    stored for the device at that time is not RequestFailed; in every other
    case it starts none. *)
Theorem onStateUpdate_requests
    (opts : Opts) (babyUID : string) (m : gmap string State)
    (updatedBabyUID : string) (stateUpdate : State) :
  let wanted :=
    updatedBabyUID = babyUID /\
    State_StreamState stateUpdate = Some StreamState_Unhealthy /\
    GetStreamRequestState (GetBabyState m babyUID)
      <> StreamRequestState_RequestFailed in
  (onStateUpdate opts babyUID m updatedBabyUID stateUpdate
     = [initializeLocalStreaming opts babyUID] <-> wanted) /\
  (onStateUpdate opts babyUID m updatedBabyUID stateUpdate = [] <-> ~ wanted) /\
  req_status (initializeLocalStreaming opts babyUID) = Streaming_STARTED /\
  req_babyUID (initializeLocalStreaming opts babyUID) = babyUID.
Proof.
  intros wanted. unfold wanted, onStateUpdate.
  destruct (String.eqb_spec updatedBabyUID babyUID) as [Hu|Hu];
    destruct (State_StreamState stateUpdate) as [[]|];
    destruct (GetStreamRequestState (GetBabyState m babyUID)); simpl;
    (split; [|split; [|split; reflexivity]]);
    intuition (try discriminate; try congruence).
Qed.

(** C8 as stated fails: with liveness Unhealthy and a request pending, a
    start request is issued on connection. *)
Lemma onConnected_pending_unhealthy :
  let opts := {| RTMP := Some {| ListenAddr := ":1935"; PublicAddr := "10.0.0.2:1935" |} |} in
  let m : gmap string State :=
    {[ "baby"%string :=
         {| State_StreamState := Some StreamState_Unhealthy;
            State_StreamRequestState := Some StreamRequestState_Requested |} ]} in
  GetStreamState (GetBabyState m "baby") <> StreamState_Alive /\
  GetStreamRequestState (GetBabyState m "baby") = StreamRequestState_Requested /\
  onConnected opts "baby" m = [initializeLocalStreaming opts "baby"].
Proof.
  intros opts m. repeat split. vm_compute. discriminate.
Qed.

(** C8, as amended. On connection a start request is issued exactly when
    local streaming is configured, the stored liveness is not Alive, and
    either no request is pending or the stored liveness is Unhealthy. *)
Theorem onConnected_requests
    (opts : Opts) (babyUID : string) (m : gmap string State) :
  let babyState := GetBabyState m babyUID in
  let wanted :=
    RTMP opts <> None /\
    GetStreamState babyState <> StreamState_Alive /\
    (GetStreamRequestState babyState <> StreamRequestState_Requested \/
     GetStreamState babyState = StreamState_Unhealthy) in
  (onConnected opts babyUID m = [initializeLocalStreaming opts babyUID] <-> wanted) /\
  (onConnected opts babyUID m = [] <-> ~ wanted).
Proof.
  intros babyState wanted. unfold wanted, onConnected. fold babyState.
  destruct (RTMP opts) as [rtmp|];
    destruct (GetStreamState babyState), (GetStreamRequestState babyState); simpl;
    split; intuition (try discriminate; try congruence).
Qed.

(** ** Supervisor *)

(** C9. Under the policy handleBaby gives the supervisor (reset threshold
    2s, cooldown schedule 2s, 30s, 2m, 15m, 1h) three failures in a row,
    each of a run shorter than 2s, are followed by waits of 2s, 30s and 2m;
    further such failures climb the schedule and stay at its last entry;
    after a run of at least 2s the next run has ordinal 1 again, so that
    its failure is followed by a wait of 2s. *)
Theorem stream_processor_backoff
    (uid : string) (d1 d2 d3 long d : Z) (more : list Z) (ordinal : nat) :
  let opts := streamProcessorOpts uid in
  (d1 < 2 * Time.Second)%Z -> (d2 < 2 * Time.Second)%Z -> (d3 < 2 * Time.Second)%Z ->
  Forall (fun d => (d < 2 * Time.Second)%Z) more ->
  (2 * Time.Second <= long)%Z -> (d < 2 * Time.Second)%Z ->
  Utils.RunWithPerseverance opts 1 [d1; d2; d3] =
    [(1, Some (2 * Time.Second)%Z); (2, Some (30 * Time.Second)%Z);
     (3, Some (2 * Time.Minute)%Z)] /\
  Utils.RunWithPerseverance opts 1 more =
    map (fun i => (S i, Some (nth (Nat.min i 4) (Utils.Cooldown opts) 0%Z)))
        (seq 0 (length more)) /\
  (forall k, 5 <= k -> Utils.cooldown_for opts k = List.last (Utils.Cooldown opts) 0%Z) /\
  map fst (Utils.RunWithPerseverance opts ordinal [long; d]) = [ordinal; 1] /\
  nth 1 (map snd (Utils.RunWithPerseverance opts ordinal [long; d])) None
    = Some (2 * Time.Second)%Z.
Proof.
  intros opts H1 H2 H3 Hmore Hlong Hd. repeat apply conj.
  - rewrite AppFacts.rapid_failures by (repeat constructor; assumption).
    reflexivity.
  - rewrite AppFacts.rapid_failures by assumption.
    apply map_ext. intros i. unfold Utils.cooldown_for. simpl.
    now rewrite Nat.sub_0_r.
  - intros k Hk. unfold Utils.cooldown_for. simpl length.
    replace (Nat.min (k - 1) (5 - 1)) with 4 by lia. reflexivity.
  - simpl. unfold Utils.next_ordinal.
    replace (Utils.ResetThreshold opts <=? long)%Z with true
      by (symmetry; apply Z.leb_le; assumption).
    reflexivity.
  - simpl. unfold Utils.next_ordinal, Utils.wait_after.
    replace (Utils.ResetThreshold opts <=? long)%Z with true
      by (symmetry; apply Z.leb_le; assumption).
    replace (d <? Utils.ResetThreshold opts)%Z with true
      by (symmetry; apply Z.ltb_lt; assumption).
    reflexivity.
Qed.

Lemma stream_processor_backoff_witness :
  let opts := streamProcessorOpts "baby" in
  let ms := 1000000%Z in
  map snd (Utils.RunWithPerseverance opts 1 [300 * ms; 10 * ms; 1500 * ms])%Z =
    [Some (2 * Time.Second)%Z; Some (30 * Time.Second)%Z; Some (2 * Time.Minute)%Z] /\
  Utils.cooldown_for opts 9 = (1 * Time.Hour)%Z /\
  nth 1 (map snd (Utils.RunWithPerseverance opts 4 [7000 * ms; 20 * ms])%Z) None
    = Some (2 * Time.Second)%Z.
Proof.
  intros opts ms.
  destruct (stream_processor_backoff "baby" (300 * ms) (10 * ms) (1500 * ms)
              (7000 * ms) (20 * ms) [5 * ms; 5 * ms]%Z 4
              ltac:(reflexivity) ltac:(reflexivity) ltac:(reflexivity)
              ltac:(repeat constructor) ltac:(discriminate) ltac:(reflexivity))
    as (Hthree & _ & Hsat & _ & Hreset).
  split; [|split].
  - unfold opts. rewrite Hthree. reflexivity.
  - unfold opts. rewrite (Hsat 9) by lia. reflexivity.
  - exact Hreset.
Defined.

(** ** Stream processor *)

(** C10. Once the stream processor is started: if the process exits on
    its own, with an error or with status 0, the run calls attempt.Fail
    once, with an error that is not nil, and does not kill; if the attempt
    is cancelled first, the run kills the process and never calls
    attempt.Fail. Both versions of runStreamProcess agree. *)
Theorem runStreamProcess_fail_once (try : nat) (sel : sp_select) :
  runStreamProcess' None None sel = startStreamProcess None None sel /\
  runStreamProcess try None None sel =
    SpMaybeAuthorize (1 <? try) :: startStreamProcess None None sel /\
  match sel with
  | SpDone err =>
      (exists e, List.filter is_fail (startStreamProcess None None sel)
                   = [SpFail (Some e)] /\
                 (forall e', err = Some e' -> e = e')) /\
      ~ In SpKill (startStreamProcess None None sel)
  | SpAttemptDone killErr =>
      List.filter is_fail (startStreamProcess None None sel) = [] /\
      In SpKill (startStreamProcess None None sel)
  end.
Proof.
  split; [reflexivity|]. split; [reflexivity|].
  destruct sel as [[e|]|[k|]]; simpl.
  - split; [|intuition discriminate].
    exists e. split; [reflexivity|]. now intros e' [= ->].
  - split; [|intuition discriminate].
    eexists. split; [reflexivity|]. discriminate.
  - split; [reflexivity|]. tauto.
  - split; [reflexivity|]. tauto.
Qed.

(* ===================================================================== *)
(** * Further properties of the code *)
(* ===================================================================== *)

(** ** Package strings *)

Module StringsFacts.
Import Strings.

Lemma Split_nonempty s sep : Split s sep <> [].
Proof.
  destruct s as [|c s]; simpl; [discriminate|].
  destruct (Ascii.eqb c sep); [discriminate|].
  destruct (Split s sep); discriminate.
Qed.

Lemma Join_cons t ts sep :
  ts <> [] -> Join (t :: ts) sep = (t ++ sep ++ Join ts sep)%string.
Proof. destruct ts; [congruence | reflexivity]. Qed.

Lemma Join_Split s sep : Join (Split s sep) (String sep EmptyString) = s.
Proof.
  induction s as [|c s IH]; simpl; [reflexivity|].
  pose proof (Split_nonempty s sep) as Hne.
  destruct (Ascii.eqb_spec c sep) as [->|Hc].
  - rewrite Join_cons by assumption. simpl. now rewrite IH.
  - destruct (Split s sep) as [|t ts]; [congruence|].
    destruct ts as [|t' ts].
    + simpl in *. now rewrite IH.
    + rewrite Join_cons by discriminate.
      rewrite Join_cons in IH by discriminate.
      rewrite <- IH. reflexivity.
Qed.

Lemma length_Split s sep : length (Split s sep) = S (count_byte sep s).
Proof.
  induction s as [|c s IH]; simpl; [reflexivity|].
  pose proof (Split_nonempty s sep) as Hne.
  destruct (Ascii.eqb c sep); simpl.
  - now rewrite IH.
  - destruct (Split s sep) as [|t ts]; [congruence|]. exact IH.
Qed.

Lemma Split_no_sep s sep :
  Forall (fun t => contains_byte sep t = false) (Split s sep).
Proof.
  induction s as [|c s IH]; simpl.
  - constructor; [reflexivity | constructor].
  - destruct (Ascii.eqb c sep) eqn:Ec.
    + constructor; [reflexivity | assumption].
    + destruct (Split s sep) as [|t ts].
      * constructor; [simpl; now rewrite Ec | constructor].
      * inversion IH as [|? ? Ht Hts]; subst.
        constructor; [simpl; now rewrite Ec, Ht | assumption].
Qed.

Lemma prefix_head a o c s : String.prefix (String a o) (String c s) = true -> a = c.
Proof. simpl. destruct (ascii_dec a c); [auto | discriminate]. Qed.

Lemma find_old_no_brace pairs c s :
  AppCommand.braces pairs = true -> c <> "{"%char ->
  find_old pairs (String c s) = None.
Proof.
  unfold find_old, AppCommand.braces. intros Hb Hc.
  induction pairs as [|[old new] pairs IH]; [reflexivity|].
  cbn [forallb fst] in Hb. apply andb_true_iff in Hb as [Hold Hb].
  cbn [List.find fst].
  destruct (String.prefix old (String c s)) eqn:Ep.
  - destruct old as [|a old]; [discriminate|].
    apply Ascii.eqb_eq in Hold. subst a.
    apply prefix_head in Ep. congruence.
  - now apply IH.
Qed.

Lemma Replace_no_brace pairs s :
  AppCommand.braces pairs = true -> contains_byte "{" s = false ->
  Replace pairs s = s.
Proof.
  intros Hb. unfold Replace. induction s as [|c s IH]; simpl; [reflexivity|].
  intros Hs. apply orb_false_iff in Hs as [Hc Hs].
  change (match find_old pairs (String c s) with
          | Some (old, new) =>
              (new ++ Replace_from pairs (String.length old - 1) s)%string
          | None => String c (Replace_from pairs 0 s)
          end = String c s).
  rewrite find_old_no_brace; [|assumption|].
  - now rewrite IH.
  - intros ->. discriminate.
Qed.

End StringsFacts.

(** ** The probe, further *)

Module ProbeObsFacts.
Import Probe ProbeObs.

Ltac step_only H :=
  unfold step, step_ProcExit, step_TailDone, step_Cancel, step_DecHeader,
    step_DecTag, step_DecReport, step_SelExited, step_RecvTail,
    step_SelCtxDone, step_SelDecoder in H;
  repeat case_match; simplify_eq.

(** What a step changes of the parts of the state the kills are counted
    by. *)
Lemma step_kill_frame s a s' :
  step s a = Some s' ->
  kills (trace s') =
    kills (trace s)
      + (if is_SelDecoder a then 1
         else if is_SelCtxDone a then (if exitingFlag s then 0 else 1) else 0) /\
  (main s' = MainSelect -> main s = MainSelect) /\
  (is_SelCtxDone a = true -> main s = MainSelect /\ main s' = MainSelect /\
                             exitingFlag s' = true) /\
  (is_SelCtxDone a = false -> main s' = MainSelect -> exitingFlag s' = exitingFlag s) /\
  (is_SelDecoder a = true -> decoderC s <> None /\ decoderC s' = None /\
                             decoder s' = decoder s) /\
  (is_SelDecoder a = false ->
   (decoderC s' = decoderC s /\ (decoder s = DecReturned -> decoder s' = DecReturned)) \/
   (decoder s <> DecReturned /\ decoder s' = DecReturned /\
    decoderC s' <> None /\ decoderC s' <> Some DecodeOk)) /\
  (decoder s = DecReturned -> decoder s' = DecReturned).
Proof.
  intros H. unfold kills.
  destruct a; step_only H; simpl;
    rewrite ?List.filter_app, ?length_app; simpl;
    repeat split; try congruence; try lia; try discriminate;
    try (left; split; congruence);
    try (right; repeat split; congruence);
    try (right; repeat split; try congruence;
         match goal with err : decode_error |- _ => destruct err end;
         discriminate).
Qed.

Lemma kill_inv_step acts s a s' :
  kill_inv acts s -> step s a = Some s' -> kill_inv (acts ++ [a]) s'.
Proof.
  intros (Hk & Hflag & Hdec & Hch & Hok & Hle) H.
  destruct (step_kill_frame _ _ _ H)
    as (Fk & Fmain & Fctx & Fnctx & Fsel & Fnsel & Fret).
  clear H. unfold kill_inv.
  rewrite List.filter_app, existsb_app, length_app. simpl.
  assert (Hnil : forall x : action,
             List.filter is_SelDecoder acts ++ [x] <> [])
    by (intros x Hx; apply app_eq_nil in Hx as [_ Hx]; discriminate).
  destruct (is_SelDecoder a) eqn:Ed; destruct (is_SelCtxDone a) eqn:Ec;
    try (destruct a; discriminate); simpl;
    rewrite ?orb_false_r, ?orb_true_r, ?app_nil_r, ?length_app in *; simpl;
    destruct (existsb is_SelCtxDone acts) eqn:Ee;
    destruct (exitingFlag s) eqn:Ef;
    destruct (decoder s) eqn:Eds; destruct (decoderC s) as [[]|] eqn:Ecs;
    destruct (List.filter is_SelDecoder acts) as [|x l] eqn:El; simpl in *;
    intuition (try congruence; try lia; try discriminate).
Qed.

Lemma kill_inv_run uid acts s :
  run (init uid) acts = Some s -> kill_inv acts s.
Proof.
  apply (ProbeFacts.run_invariant kill_inv).
  - unfold kill_inv, kills. simpl. repeat split; try congruence; try lia.
  - intros. eapply kill_inv_step; eassumption.
Qed.

Lemma return_inv_step acts s a s' :
  return_inv acts s -> step s a = Some s' -> return_inv (acts ++ [a]) s'.
Proof.
  intros [Hcode Hret] H. unfold return_inv. rewrite existsb_app.
  assert (Hcode' : forall c, exitCode s = Some c -> In (ProcExit c) (acts ++ [a]))
    by (intros; apply in_app_iff; left; auto).
  destruct a; step_only H; simpl in *; rewrite ?orb_false_r, ?orb_true_r;
    (split;
     [ first [ assumption
             | intros c [= <-]; apply in_app_iff; right; now left ]
     | first [ solve [congruence]
             | solve [intros _; repeat split; eauto]
             | solve [intros Hm;
                      destruct (Hret ltac:(congruence)) as (Hf & He & c' & Hc);
                      repeat split; eauto; congruence] ] ]).
Qed.

Lemma return_inv_run uid acts s :
  run (init uid) acts = Some s -> return_inv acts s.
Proof.
  apply (ProbeFacts.run_invariant return_inv).
  - split; simpl; [discriminate | congruence].
  - intros. eapply return_inv_step; eassumption.
Qed.


End ProbeObsFacts.

(** ** The log classifier, further *)

Module PlayerMore.
Import Regexp Player.

(** The blanks a text begins with, and what follows them. *)
Lemma leading_blanks (t : list ascii) :
  exists ws r, t = ws ++ r /\ forallb cls_space ws = true /\
               starts_with cls_space r = false.
Proof.
  induction t as [|c t IH].
  - exists [], []. auto.
  - destruct (cls_space c) eqn:Ec.
    + destruct IH as (ws & r & -> & Hws & Hr).
      exists (c :: ws), r. simpl. rewrite Ec, Hws. auto.
    + exists [], (c :: t). auto.
Qed.

Lemma tool_tag_blanks p ws :
  tool_tag p -> forallb cls_space ws = true -> tool_tag (p ++ ws).
Proof.
  intros (w1 & w2 & hx & bs & -> & Hw1 & Hw2 & Hhx1 & Hhx2 & Hbs1 & Hbs2) Hws.
  exists w1, w2, hx, (bs ++ ws). repeat split; try assumption.
  - simpl. now rewrite <- !app_assoc.
  - destruct bs; [congruence | discriminate].
  - rewrite forallb_app, Hbs2, Hws. reflexivity.
Qed.

(** The classification of a tagged line is that of the text after the
    tag. *)
Lemma parse_tagged p rest :
  tool_tag p -> starts_with cls_space rest = false ->
  parseSilenceDetectLog (p ++ rest) =
    if MatchString ffmpegSilenceDetectStartRX rest
    then ffmpegSilenceDetectEvent_start
    else if MatchString ffmpegSilenceDetectEndRX rest
         then ffmpegSilenceDetectEvent_end
         else ffmpegSilenceDetectEvent_unknown.
Proof.
  intros Hp Hrest.
  destruct (PlayerFacts.parse_cases (p ++ rest))
    as [[_ Hu]|(p' & rest' & Heq & Hp' & Hrest' & ->)].
  - exfalso. eapply Hu; [exact Hp | reflexivity].
  - apply PlayerFacts.tool_tag_unique in Heq as [_ <-]; auto.
Qed.

Lemma start_end_exclusive w :
  MatchString ffmpegSilenceDetectStartRX w = true ->
  MatchString ffmpegSilenceDetectEndRX w = true -> False.
Proof.
  intros Hs He.
  apply PlayerFacts.start_match_iff in Hs as (c & n & -> & _).
  apply PlayerFacts.end_match_iff in He as (c' & n' & rest & Heq & _).
  discriminate Heq.
Qed.

End PlayerMore.

(** ** The application, further *)

Module AppMore.
Import Baby App AppCommand.

Lemma append_nil_r (s : string) : (s ++ "")%string = s.
Proof.
  induction s as [|c s IH]; [reflexivity|].
  change (String c (s ++ "")%string = String c s). now f_equal.
Qed.

Lemma lookup_Update_ne (m : gmap string State) uid uid' delta :
  uid <> uid' -> Update m uid delta !! uid' = m !! uid'.
Proof. intros Hne. unfold Update. now rewrite lookup_insert_ne. Qed.

End AppMore.

(* ===================================================================== *)
(** * Further statements *)
(* ===================================================================== *)

(** ** Log classifier *)

(** X1. The classification of a line that begins with a tool tag does not
    depend on the tag: the address and the number of blanks after it may
    change without changing the result. *)
Theorem classification_independent_of_tag (p p' rest : list ascii) :
  tool_tag p -> tool_tag p' ->
  parseSilenceDetectLog (p ++ rest) = parseSilenceDetectLog (p' ++ rest).
Proof.
  intros Hp Hp'.
  destruct (PlayerMore.leading_blanks rest) as (ws & r & -> & Hws & Hr).
  rewrite !app_assoc.
  rewrite !PlayerMore.parse_tagged
    by (try apply PlayerMore.tool_tag_blanks; assumption).
  reflexivity.
Qed.

Lemma classification_independent_of_tag_witness :
  parseSilenceDetectLog (bytes "[silencedetect @ 0x1] silence_end: 7 | silence_duration: 2")
  = parseSilenceDetectLog
      (bytes "[silencedetect	@ 0x7fc1f3625880]    silence_end: 7 | silence_duration: 2").
Proof.
  apply (classification_independent_of_tag
           (bytes "[silencedetect @ 0x1] ")
           (bytes "[silencedetect	@ 0x7fc1f3625880]    ")
           (bytes "silence_end: 7 | silence_duration: 2")).
  - exists " "%char, " "%char, (bytes "1"), (bytes " ").
    repeat split; discriminate.
  - exists "009"%char, " "%char, (bytes "7fc1f3625880"), (bytes "    ").
    repeat split; discriminate.
Defined.

(** X2. No text matches both the start pattern and the end pattern, so
    the order in which parseSilenceDetectLog tries them does not change its
    result. *)
Theorem start_and_end_patterns_exclusive (w : list ascii) :
  Regexp.MatchString ffmpegSilenceDetectStartRX w
  && Regexp.MatchString ffmpegSilenceDetectEndRX w = false.
Proof.
  destruct (Regexp.MatchString ffmpegSilenceDetectStartRX w) eqn:Hs;
    destruct (Regexp.MatchString ffmpegSilenceDetectEndRX w) eqn:He;
    try reflexivity.
  destruct (PlayerMore.start_end_exclusive w Hs He).
Qed.

(** X3. The prefix found is always a prefix of the line, so the slice
    line[len(prefix):] is within bounds and removes the match and nothing
    else; a prefix that is not empty is the tool tag with all the blanks
    after it, so that what is left does not begin with a blank. *)
Theorem prefix_slice_in_bounds (line : list ascii) :
  let prefix := Regexp.FindString ffmpegSilenceDetectPrefixRX line in
  length prefix <= length line /\
  prefix ++ skipn (length prefix) line = line /\
  (prefix <> [] ->
   tool_tag prefix /\
   Regexp.starts_with Regexp.cls_space (skipn (length prefix) line) = false).
Proof.
  intros prefix. subst prefix.
  pose proof (PlayerFacts.find_prefix_cases line) as Hc.
  destruct (Regexp.run ffmpegSilenceDetectPrefixRX 0 line) as [|x l].
  - rewrite Hc. simpl. repeat split; [lia | congruence | congruence].
  - destruct Hc as (p & rest & -> & -> & Hp & Hrest).
    rewrite drop_app_length, length_app. repeat split; [lia | assumption..].
Qed.

(** ** Stream liveness probe *)

Import ProbeObs.

(** X4. The probe kills the process for two reasons only: once when the
    select loop first takes the cancellation, and once when it takes a
    decoder failure, which happens at most once. So the process is killed
    at most twice, and never in a schedule in which the select loop took
    neither. *)
Theorem kills_accounted (uid : string) (acts : list action) (s : state) :
  Probe.run (init uid) acts = Some s ->
  kills (trace s) =
    length (List.filter is_SelDecoder acts)
      + (if existsb is_SelCtxDone acts then 1 else 0) /\
  length (List.filter is_SelDecoder acts) <= 1 /\
  kills (trace s) <= 2.
Proof.
  intros Hrun.
  destruct (ProbeObsFacts.kill_inv_run _ _ _ Hrun) as (Hk & _ & _ & _ & _ & Hle).
  repeat split; try assumption.
  rewrite Hk. destruct (existsb is_SelCtxDone acts); lia.
Qed.

Lemma kills_accounted_witness :
  exists s,
    Probe.run (init "baby")
      [DecHeader DecodeOk; DecTag (DecodeErr "bad tag"); DecReport; SelDecoder;
       Cancel; SelCtxDone; SelCtxDone] = Some s /\
    kills (trace s) = 2.
Proof.
  probe_run (init "baby")
    [DecHeader DecodeOk; DecTag (DecodeErr "bad tag"); DecReport; SelDecoder;
     Cancel; SelCtxDone; SelCtxDone] s Hrun.
  exists s. split; [exact Hrun|].
  destruct (kills_accounted "baby" _ s Hrun) as (Hk & _ & _).
  rewrite Hk. reflexivity.
Defined.

(** X5. Whenever the decoder goroutine is still running, the channel
    decoderC is empty: its one buffered slot is enough, the send of the
    goroutine never blocks. What the channel carries is an error. *)
Theorem decoderC_send_never_blocks (uid : string) (acts : list action) (s : state) :
  Probe.run (init uid) acts = Some s ->
  (decoder s <> DecReturned -> decoderC s = None) /\
  decoderC s <> Some DecodeOk.
Proof.
  intros Hrun.
  destruct (ProbeObsFacts.kill_inv_run _ _ _ Hrun) as (_ & _ & Hdec & _ & Hok & _).
  split; [|assumption]. intros Hd. now destruct (Hdec Hd).
Qed.

Lemma decoderC_send_never_blocks_witness :
  exists s,
    Probe.run (init "baby")
      [DecHeader DecodeOk; DecTag DecodeOk; DecTag DecodeEOF; Cancel] = Some s /\
    decoderC s = None.
Proof.
  probe_run (init "baby")
    [DecHeader DecodeOk; DecTag DecodeOk; DecTag DecodeEOF; Cancel] s Hrun.
  exists s. split; [exact Hrun|].
  destruct (decoderC_send_never_blocks "baby" _ s Hrun) as [Hempty _].
  apply Hempty. discriminate.
Defined.



(** X7. dummyPlayer returns only through the exit case of its select:
    when it has returned, cmd.Wait had returned, the select loop had taken
    the exit, and the latch is set. Cancellation alone does not end it. *)
Theorem returns_only_after_exit (uid : string) (acts : list action) (s : state) :
  Probe.run (init uid) acts = Some s ->
  main s = MainReturned ->
  exitingFlag s = true /\
  existsb is_SelExited acts = true /\
  exists code, In (ProcExit code) acts /\ exitCode s = Some code.
Proof.
  intros Hrun Hm.
  destruct (ProbeObsFacts.return_inv_run _ _ _ Hrun) as [Hcode Hret].
  destruct (Hret ltac:(congruence)) as (Hf & He & c & Hc).
  repeat split; try assumption. exists c. auto.
Qed.

Lemma returns_only_after_exit_witness :
  exists s,
    Probe.run (init "baby") [Cancel; SelCtxDone; ProcExit (-1); SelExited] = Some s /\
    exitingFlag s = true /\
    exists code, In (ProcExit code) [Cancel; SelCtxDone; ProcExit (-1); SelExited].
Proof.
  probe_run (init "baby") [Cancel; SelCtxDone; ProcExit (-1); SelExited] s Hrun.
  exists s. split; [exact Hrun|].
  destruct (returns_only_after_exit "baby" _ s Hrun eq_refl)
    as (Hf & _ & code & Hin & _).
  split; [exact Hf|]. exists code. exact Hin.
Defined.

(** ** Stream processor *)

Import AppCommand.

(** X8. What a run of runStreamProcess does, for every outcome of its
    set-up: the process is started exactly when the log file could be
    created; attempt.Fail is called exactly when the set-up succeeded and
    the process exited on its own, the kill is sent exactly when the set-up
    succeeded and the attempt was cancelled first; the log file is closed
    exactly when the set-up succeeded, and the program ends with log.Fatal
    exactly when it failed. A failed set-up is thus never reported to the
    supervisor. *)
Theorem runStreamProcess_outcomes
    (try : nat) (fileErr startErr : error) (sel : sp_select) :
  let tr := runStreamProcess try fileErr startErr sel in
  hd_error tr = Some (SpMaybeAuthorize (1 <? try)) /\
  (In SpStart tr <-> fileErr = None) /\
  (existsb is_fail tr = true <->
   fileErr = None /\ startErr = None /\ exists e, sel = SpDone e) /\
  (In SpKill tr <->
   fileErr = None /\ startErr = None /\ exists k, sel = SpAttemptDone k) /\
  (In SpCloseLog tr <-> fileErr = None /\ startErr = None) /\
  ((exists msg, In (SpFatal msg) tr) <-> fileErr <> None \/ startErr <> None).
Proof.
  intros tr. subst tr.
  destruct fileErr as [fe|], startErr as [se|], sel as [[e|]|[k|]]; simpl;
    (split; [reflexivity|]);
    repeat split; intros;
    repeat match goal with
      | H : exists _, _ |- _ => destruct H
      | H : _ /\ _ |- _ => destruct H
      | H : _ \/ _ |- _ => destruct H
      end;
    first [ discriminate | congruence | contradiction
          | solve [eauto 10]
          | solve [left; discriminate] | solve [right; discriminate]
          | solve [eexists; simpl; eauto 10] ].
Qed.

(** X9. The command line of the stream processor always has a first
    token, so that cmdTokens[0] and cmdTokens[1:] are within bounds; there
    is one token more than there are spaces in the expanded template, no
    token holds a space, and joining the tokens with spaces, as the log
    line does, gives the expanded template back. This holds for both
    versions of runStreamProcess. *)
Theorem cmdTokens_shape
    (commandTemplate url remoteStreamURL localStreamURL babyUID : string) :
  let expanded :=
    Strings.Replace [("{sourceUrl}"%string, url); ("{babyUid}"%string, babyUID)]
                    commandTemplate in
  let expanded' :=
    Strings.Replace [("{remoteStreamUrl}"%string, remoteStreamURL);
                     ("{localStreamUrl}"%string, localStreamURL);
                     ("{babyUid}"%string, babyUID)]
                    commandTemplate in
  let tokens := cmdTokens commandTemplate url babyUID in
  let tokens' := cmdTokens' commandTemplate remoteStreamURL localStreamURL babyUID in
  (tokens <> [] /\
   length tokens = S (Strings.count_byte " " expanded) /\
   Forall (fun t => Strings.contains_byte " " t = false) tokens /\
   Strings.Join tokens " " = expanded) /\
  (tokens' <> [] /\
   length tokens' = S (Strings.count_byte " " expanded') /\
   Forall (fun t => Strings.contains_byte " " t = false) tokens' /\
   Strings.Join tokens' " " = expanded').
Proof.
  intros expanded expanded' tokens tokens'.
  subst tokens tokens'. unfold cmdTokens, cmdTokens'. fold expanded expanded'.
  repeat split;
    first [ apply StringsFacts.Split_nonempty
          | apply StringsFacts.length_Split
          | apply StringsFacts.Split_no_sep
          | apply StringsFacts.Join_Split ].
Qed.

(** X10. A command template without an opening brace is run as it is
    written: the tokens are those of the template, whatever the stream URLs
    and the identifier of the device are. *)
Theorem cmdTokens_without_placeholders
    (commandTemplate url remoteStreamURL localStreamURL babyUID : string) :
  Strings.contains_byte "{" commandTemplate = false ->
  cmdTokens commandTemplate url babyUID = Strings.Split commandTemplate " " /\
  cmdTokens' commandTemplate remoteStreamURL localStreamURL babyUID
    = Strings.Split commandTemplate " ".
Proof.
  intros Hno. unfold cmdTokens, cmdTokens'.
  rewrite !StringsFacts.Replace_no_brace by (assumption || reflexivity).
  split; reflexivity.
Qed.

Lemma cmdTokens_without_placeholders_witness :
  cmdTokens "ffmpeg -i in.flv -c copy out.mp4" "rtmps://host/x" "baby"
  = ["ffmpeg"; "-i"; "in.flv"; "-c"; "copy"; "out.mp4"]%string.
Proof.
  destruct (cmdTokens_without_placeholders
              "ffmpeg -i in.flv -c copy out.mp4" "rtmps://host/x" "" "" "baby"
              eq_refl) as [-> _].
  reflexivity.
Defined.

(** X11. The local stream URL is the template with each placeholder
    replaced once: rtmp://, the public address, /local/ and the identifier
    of the device. The values put in are not read again, so that a
    placeholder inside the address or the identifier is left as it is. *)
Theorem getLocalStreamURL_expands_template (opts : Opts) (babyUID : string) :
  getLocalStreamURL_tpl opts babyUID = getLocalStreamURL opts babyUID.
Proof.
  unfold getLocalStreamURL_tpl, getLocalStreamURL.
  destruct (RTMP opts) as [rtmp|]; [|reflexivity].
  unfold Strings.Replace. cbn -[String.append].
  rewrite AppMore.append_nil_r. reflexivity.
Qed.

(** ** Watchdog *)

(** X13. The update of the watchdog carries the liveness only: when the
    loop has made it, after the probe returned, the request state stored
    for the device is what it was when the probe ended, and the records of
    the other devices are as the probe left them. *)
Theorem watchdog_update_is_partial
    (opts : Opts) (babyUID : string) (s s' : wd_state) :
  wd_step opts babyUID s WdProbeReturned = Some s' ->
  State_StreamRequestState (GetBabyState (wd_store s') babyUID)
    = State_StreamRequestState (GetBabyState (wd_store s) babyUID) /\
  forall uid, uid <> babyUID -> wd_store s' !! uid = wd_store s !! uid.
Proof.
  intros H. unfold wd_step in H.
  destruct (wd_returned s); [discriminate|].
  destruct (wd_pc s) as [|started p| | |]; try discriminate.
  destruct (Probe.main p); try discriminate.
  injection H as <-. cbn [wd_store]. split.
  - rewrite AppFacts.GetBabyState_Update. reflexivity.
  - intros uid Hne. apply AppMore.lookup_Update_ne. congruence.
Qed.

Lemma watchdog_update_is_partial_witness :
  let opts := {| RTMP := None |} in
  let m : gmap string State :=
    {[ "baby"%string :=
         SetStreamRequestState StreamRequestState_Requested NewState ]} in
  exists s s',
    runWatchDog opts "baby" (wd_init 0 m)
      [WdSelTimer; WdProbe (ProcExit 1); WdProbe (TailDone []);
       WdProbe SelExited; WdProbe RecvTail] = Some s /\
    wd_step opts "baby" s WdProbeReturned = Some s' /\
    GetStreamState (GetBabyState (wd_store s') "baby") = StreamState_Unhealthy /\
    State_StreamRequestState (GetBabyState (wd_store s') "baby")
      = Some StreamRequestState_Requested.
Proof.
  intros opts m.
  destruct (runWatchDog opts "baby" (wd_init 0 m)
              [WdSelTimer; WdProbe (ProcExit 1); WdProbe (TailDone []);
               WdProbe SelExited; WdProbe RecvTail]) as [s|] eqn:Hrun;
    [|vm_compute in Hrun; discriminate].
  destruct (wd_step opts "baby" s WdProbeReturned) as [s'|] eqn:Hstep;
    [|vm_compute in Hrun; injection Hrun as <-; vm_compute in Hstep; discriminate].
  exists s, s'. split; [reflexivity|]. split; [exact Hstep|].
  destruct (watchdog_update_is_partial opts "baby" s s' Hstep) as [-> _].
  vm_compute in Hrun. injection Hrun as <-.
  vm_compute in Hstep. injection Hstep as <-.
  split; vm_compute; reflexivity.
Defined.
